(** * nclib.Netcat: buffered receive and send primitives

    A shallow embedding of [src/nclib.py] (the Python 3 adaptation of
    nclib) and the properties of its receive family ([recv],
    [recv_until], [recv_all], [recv_exactly]), of [send], of
    [settimeout], of the constructor and of [interact].

    What is modelled and how:
    - a [bytes] object is a [list byte]; lengths, sizes and slice
      positions are in [Z], with Python's slice rules written out;
    - the [Netcat] object is a record of its attributes; the socket it
      owns is a record holding its deadline ([settimeout]) and the
      environment's script of what the next raw reads and writes do;
    - [time.time()] is an arbitrary function from the number of the
      call to the reading, in abstract time units;
    - a method is a state transformer that returns a value or raises:
      the state survives a raise, as the Python object does;
    - a [while] loop is a fixpoint on a step budget; running out of the
      budget is its own result, [Fuel], which no handler catches.

    The echo layer ([verbose] headers, line and hex dumps written to
    stdout) is outside the model: the object is taken with [verbose=0],
    the constructor's default, so the header that each method prints
    first under [verbose] is left out.  A call of [_log_recv] or
    [_log_send] is recorded with its argument.  [interact] runs
    against one more script: what [select] reports and what the
    terminal delivers.  [close], [shutdown] and [fileno], which only
    delegate to the socket, are not modelled. *)

From Stdlib Require Import String.
From Stdlib Require Import List ZArith Lia Bool.
From Stdlib Require Import Strings.Byte Numbers.DecimalString.
Import ListNotations.
Local Open Scope string_scope.
Local Open Scope list_scope.
Local Open Scope Z_scope.

(** ** Byte strings *)

Definition bytes := list byte.

Definition len (b : bytes) : Z := Z.of_nat (length b).

(** [bool(b)] of a bytes object. *)
Definition nonempty (b : bytes) : bool :=
  match b with [] => false | _ :: _ => true end.

(** The position a slice bound [i] denotes in [b]: a negative bound
    counts from the end, and [firstn]/[skipn] clamp at the length. *)
Definition slice_pos (b : bytes) (i : Z) : nat :=
  if i <? 0 then Z.to_nat (Z.max 0 (len b + i)) else Z.to_nat i.

(** [b[:i]] *)
Definition slice_to (b : bytes) (i : Z) : bytes := firstn (slice_pos b i) b.

(** [b[i:]] *)
Definition slice_from (b : bytes) (i : Z) : bytes := skipn (slice_pos b i) b.

(** [b.startswith(s)] *)
Fixpoint startswith (b s : bytes) {struct s} : bool :=
  match s, b with
  | [], _ => true
  | _ :: _, [] => false
  | x :: s', y :: b' => Byte.eqb x y && startswith b' s'
  end.

(** [b.find(s)]: the lowest position where [s] occurs in [b]. *)
Fixpoint find (b s : bytes) : option nat :=
  if startswith b s then Some 0%nat
  else match b with
       | [] => None
       | _ :: b' => option_map S (find b' s)
       end.

(** [s in b] *)
Definition contains (b s : bytes) : bool :=
  match find b s with Some _ => true | None => false end.

(** The two kinds of Python value that meet in the comparisons
    [ret == ''] and [a == '']: in Python 3 a bytes object and a str are
    never equal. *)
Inductive pyval :=
| PyBytes (b : bytes)
| PyStr (s : string).

Definition bytes_eqb (a b : bytes) : bool :=
  if list_eq_dec byte_eq_dec a b then true else false.

Definition py_eq (x y : pyval) : bool :=
  match x, y with
  | PyBytes a, PyBytes b => bytes_eqb a b
  | PyStr a, PyStr b => String.eqb a b
  | _, _ => false
  end.

(** ["Connection closed before {0} bytes received!".format(n)] *)
Definition closed_before (n : Z) : string :=
  "Connection closed before " ++ NilZero.string_of_int (Z.to_int n)
    ++ " bytes received!".

(** ** Timeouts *)

(** The [timeout] argument of the receive methods: the string
    ['default'], [None], or a number. *)
Inductive timeout_arg :=
| Default
| NoTimeout
| Secs (t : Z).

(** [bool(timeout)]: ['default'] is a nonempty string. *)
Definition truthy (t : timeout_arg) : bool :=
  match t with
  | Default => true
  | NoTimeout => false
  | Secs z => negb (z =? 0)
  end.

(** ** Exceptions and results *)

Inductive exn :=
| NetcatError (msg : string)
| socket_timeout
| socket_error
| KeyboardInterrupt
| ValueError
| AttributeError.

Inductive Res (A : Type) :=
| Ret (a : A)
| Raise (e : exn)
| Fuel.
Arguments Ret {A} a.
Arguments Raise {A} e.
Arguments Fuel {A}.

(** ** The socket *)

(** What the next raw read does: deliver a chunk (an empty chunk is a
    zero-length read), raise [socket.timeout], raise another
    [socket.error], or be interrupted from the keyboard. *)
Inductive read_event :=
| RData (chunk : bytes)
| RTimeout
| RError
| RInterrupt.

(** What the next raw write does: accept [k] of the bytes offered, or
    raise [socket.error]. *)
Inductive write_event :=
| WAccept (k : nat)
| WError.

Definition addr := (string * Z)%type.

(** One raw write as issued: [send(data)] has no target, [sendto(data,
    0, peer)] has one. *)
Record write_call := mkWrite {
  w_target : option addr;
  w_data : bytes;
  w_accepted : nat
}.

Record Socket := mkSocket {
  deadline : option Z;            (* gettimeout() *)
  incoming : list read_event;     (* what the next reads will do *)
  delivered : list bytes;         (* what each read so far returned *)
  outgoing : list write_event;    (* what the next writes will do *)
  written : list write_call       (* the writes issued so far *)
}.

(** [sock.settimeout(t)]: a negative number is refused. *)
Definition sock_settimeout (t : option Z) (s : Socket) : Res unit * Socket :=
  match t with
  | Some z =>
      if z <? 0 then (Raise ValueError, s)
      else (Ret tt, mkSocket (Some z) (incoming s) (delivered s) (outgoing s) (written s))
  | None => (Ret tt, mkSocket None (incoming s) (delivered s) (outgoing s) (written s))
  end.

(** [sock.recv(k)] on a stream: at most [k] bytes of the chunk at the
    head, the rest of the chunk stays queued; when the script is over
    the peer has closed and every read is zero-length. *)
Definition sock_recv (k : Z) (s : Socket) : Res bytes * Socket :=
  if k <? 0 then (Raise ValueError, s)
  else
    match incoming s with
    | [] =>
        (Ret [], mkSocket (deadline s) [] (delivered s ++ [[]]) (outgoing s) (written s))
    | RData c :: rest =>
        let a := firstn (Z.to_nat k) c in
        let c' := skipn (Z.to_nat k) c in
        (Ret a,
         mkSocket (deadline s)
                  (if nonempty c' then RData c' :: rest else rest)
                  (delivered s ++ [a]) (outgoing s) (written s))
    | RTimeout :: rest =>
        (Raise socket_timeout,
         mkSocket (deadline s) rest (delivered s) (outgoing s) (written s))
    | RError :: rest =>
        (Raise socket_error,
         mkSocket (deadline s) rest (delivered s) (outgoing s) (written s))
    | RInterrupt :: rest =>
        (Raise KeyboardInterrupt,
         mkSocket (deadline s) rest (delivered s) (outgoing s) (written s))
    end.

(** A raw write of [data] to [target]: the count accepted never
    exceeds what was offered; when the script is over everything
    offered is accepted. *)
Definition sock_write (target : option addr) (data : bytes) (s : Socket)
  : Res nat * Socket :=
  match outgoing s with
  | [] =>
      (Ret (length data),
       mkSocket (deadline s) (incoming s) (delivered s) []
                (written s ++ [mkWrite target data (length data)]))
  | WAccept k :: rest =>
      let k' := Nat.min k (length data) in
      (Ret k',
       mkSocket (deadline s) (incoming s) (delivered s) rest
                (written s ++ [mkWrite target data k']))
  | WError :: rest =>
      (Raise socket_error,
       mkSocket (deadline s) (incoming s) (delivered s) rest (written s))
  end.

(** [sock.send(data)] *)
Definition sock_send (data : bytes) : Socket -> Res nat * Socket :=
  sock_write None data.

(** [sock.sendto(data, 0, address)] *)
Definition sock_sendto (data : bytes) (address : addr) : Socket -> Res nat * Socket :=
  sock_write (Some address) data.

(** ** The Netcat object *)

Record Netcat := mkNetcat {
  buf : bytes;
  sock : Socket;
  peer : option addr;             (* None: the attribute was never set *)
  peer_implicit : bool;
  _timeout : option Z;
  timed_out : bool;
  recv_log : list bytes;          (* the arguments of the _log_recv calls *)
  send_log : list bytes;          (* the arguments of the _log_send calls *)
  ticks : nat                     (* how many times time.time() was read *)
}.

Definition with_buf (b : bytes) (nc : Netcat) : Netcat :=
  mkNetcat b (sock nc) (peer nc) (peer_implicit nc) (_timeout nc)
           (timed_out nc) (recv_log nc) (send_log nc) (ticks nc).

Definition with_sock (s : Socket) (nc : Netcat) : Netcat :=
  mkNetcat (buf nc) s (peer nc) (peer_implicit nc) (_timeout nc)
           (timed_out nc) (recv_log nc) (send_log nc) (ticks nc).

Definition with__timeout (t : option Z) (nc : Netcat) : Netcat :=
  mkNetcat (buf nc) (sock nc) (peer nc) (peer_implicit nc) t
           (timed_out nc) (recv_log nc) (send_log nc) (ticks nc).

Definition with_timed_out (f : bool) (nc : Netcat) : Netcat :=
  mkNetcat (buf nc) (sock nc) (peer nc) (peer_implicit nc) (_timeout nc)
           f (recv_log nc) (send_log nc) (ticks nc).

Definition with_recv_log (l : list bytes) (nc : Netcat) : Netcat :=
  mkNetcat (buf nc) (sock nc) (peer nc) (peer_implicit nc) (_timeout nc)
           (timed_out nc) l (send_log nc) (ticks nc).

Definition with_send_log (l : list bytes) (nc : Netcat) : Netcat :=
  mkNetcat (buf nc) (sock nc) (peer nc) (peer_implicit nc) (_timeout nc)
           (timed_out nc) (recv_log nc) l (ticks nc).

Definition with_ticks (k : nat) (nc : Netcat) : Netcat :=
  mkNetcat (buf nc) (sock nc) (peer nc) (peer_implicit nc) (_timeout nc)
           (timed_out nc) (recv_log nc) (send_log nc) k.

(** ** Methods as state transformers *)

Definition M (A : Type) : Type := Netcat -> Res A * Netcat.

Definition ret {A} (a : A) : M A := fun nc => (Ret a, nc).

Definition raise {A} (e : exn) : M A := fun nc => (Raise e, nc).

Definition out_of_fuel {A} : M A := fun nc => (Fuel, nc).

Definition bind {A B} (c : M A) (k : A -> M B) : M B :=
  fun nc =>
    match c nc with
    | (Ret a, nc') => k a nc'
    | (Raise e, nc') => (Raise e, nc')
    | (Fuel, nc') => (Fuel, nc')
    end.

Declare Scope nc_scope.
Delimit Scope nc_scope with nc.
Notation "x <- c1 ;; c2" := (bind c1 (fun x => c2))
  (at level 61, c1 at next level, right associativity) : nc_scope.
Notation "c1 ;; c2" := (bind c1 (fun _ => c2))
  (at level 61, right associativity) : nc_scope.
Local Open Scope nc_scope.

(** [try: body / except ...]: the handler says which exceptions it
    takes; the others, and a spent budget, pass through. *)
Definition try_except {A} (body : M A) (handler : exn -> option (M A)) : M A :=
  fun nc =>
    match body nc with
    | (Raise e, nc') =>
        match handler e with
        | Some h => h nc'
        | None => (Raise e, nc')
        end
    | r => r
    end.

(** Reading an attribute of [self]. *)
Definition get {A} (field : Netcat -> A) : M A := fun nc => (Ret (field nc), nc).

Definition set_buf (b : bytes) : M unit := fun nc => (Ret tt, with_buf b nc).

Definition set_timed_out (f : bool) : M unit :=
  fun nc => (Ret tt, with_timed_out f nc).

(** A method call on [self.sock]. *)
Definition on_sock {A} (op : Socket -> Res A * Socket) : M A :=
  fun nc => let '(r, s) := op (sock nc) in (r, with_sock s nc).

(** [_log_recv(data)] and [_log_send(data)]: the call is recorded. *)
Definition _log_recv (data : bytes) : M unit :=
  fun nc => (Ret tt, with_recv_log (recv_log nc ++ [data]) nc).

Definition _log_send (data : bytes) : M unit :=
  fun nc => (Ret tt, with_send_log (send_log nc ++ [data]) nc).

(** [_head_buf(index)]: [None] takes the whole buffer. *)
Definition _head_buf (index : option Z) : M bytes :=
  b <- get buf ;;
  let index := match index with None => len b | Some i => i end in
  set_buf (slice_from b index) ;;
  ret (slice_to b index).

(** [settimeout(timeout)] *)
Definition settimeout (timeout : option Z) : M unit :=
  (fun nc => (Ret tt, with__timeout timeout nc)) ;;
  on_sock (sock_settimeout timeout).

(** [timeout] after [if timeout == 'default': timeout = self._timeout]. *)
Definition resolve (timeout : timeout_arg) : M (option Z) :=
  match timeout with
  | Default => get _timeout
  | NoTimeout => ret None
  | Secs t => ret (Some t)
  end.

(** [recv(n, timeout)] *)
Definition recv (n : Z) (timeout : timeout_arg) : M bytes :=
  set_timed_out false ;;
  b <- get buf ;;
  if nonempty b then
    (set_buf (slice_from b n) ;;
     _log_recv (slice_to b n) ;;
     ret (slice_to b n))
  else
    (r <- try_except
            ((match timeout with
              | Default => ret tt
              | NoTimeout => on_sock (sock_settimeout None)
              | Secs t => on_sock (sock_settimeout (Some t))
              end) ;;
             b0 <- get buf ;;
             a <- on_sock (sock_recv (n - len b0)) ;;
             set_buf (b0 ++ a) ;;
             r <- get buf ;;
             set_buf [] ;;
             ret r)
            (fun e =>
               match e with
               | socket_timeout => Some (set_timed_out true ;; ret [])
               | socket_error => Some (raise (NetcatError "Socket error!"))
               | _ => None
               end) ;;
     t <- get _timeout ;;
     on_sock (sock_settimeout t) ;;
     (* if not timeout and ret == '': *)
     if negb (truthy timeout) && py_eq (PyBytes r) (PyStr EmptyString)
     then raise (NetcatError "Connection dropped!")
     else (_log_recv r ;; ret r)).

Section Clocked.

(** The reading of the [i]-th call of [time.time()]. *)
Variable clock : nat -> Z.

Definition time_time : M Z :=
  fun nc => (Ret (clock (ticks nc)), with_ticks (S (ticks nc)) nc).

(** The deadline check at the head of each loop iteration:
    [true] when the loop is to [break]. *)
Definition check_deadline (timeout : option Z) (start : Z) : M bool :=
  match timeout with
  | Some t =>
      now <- time_time ;;
      let dt := now - start in
      if dt >? t then (set_timed_out true ;; ret true)
      else (on_sock (sock_settimeout (Some (t - dt))) ;; ret false)
  | None => ret false
  end.

(** The [while s not in self.buf] loop of [recv_until]. *)
Fixpoint recv_until_loop (fuel : nat) (s : bytes) (timeout : option Z) (start : Z)
  : M unit :=
  b <- get buf ;;
  if contains b s then ret tt
  else
    match fuel with
    | O => out_of_fuel
    | S fuel' =>
        stop <- check_deadline timeout start ;;
        if stop : bool then ret tt
        else
          (a <- on_sock (sock_recv 4096) ;;
           (* if a == '': *)
           if py_eq (PyBytes a) (PyStr EmptyString)
           then raise (NetcatError "Connection dropped!")
           else
             (_log_recv a ;;
              b' <- get buf ;;
              set_buf (b' ++ a) ;;
              recv_until_loop fuel' s timeout start))
    end.

(** [recv_until(s, timeout)] *)
Definition recv_until (fuel : nat) (s : bytes) (timeout : timeout_arg) : M bytes :=
  set_timed_out false ;;
  timeout <- resolve timeout ;;
  start <- time_time ;;
  try_except (recv_until_loop fuel s timeout start)
             (fun e =>
                match e with
                | socket_timeout => Some (set_timed_out true)
                | _ => None
                end) ;;
  t <- get _timeout ;;
  on_sock (sock_settimeout t) ;;
  late <- get timed_out ;;
  index <- (if negb late then
              (b <- get buf ;;
               match find b s with
               | Some i => ret (Some (Z.of_nat i + len s))
               | None => raise ValueError
               end)
            else ret None) ;;
  r <- _head_buf index ;;
  _log_recv r ;;
  ret r.

(** The [while True] loop of [recv_all]. *)
Fixpoint recv_all_loop (fuel : nat) (timeout : option Z) (start : Z) : M unit :=
  match fuel with
  | O => out_of_fuel
  | S fuel' =>
      stop <- check_deadline timeout start ;;
      if stop : bool then ret tt
      else
        (a <- on_sock (sock_recv 4096) ;;
         if negb (nonempty a) then ret tt
         else
           (b <- get buf ;;
            set_buf (b ++ a) ;;
            _log_recv a ;;
            recv_all_loop fuel' timeout start))
  end.

(** [recv_all(timeout)] *)
Definition recv_all (fuel : nat) (timeout : timeout_arg) : M bytes :=
  set_timed_out false ;;
  timeout <- resolve timeout ;;
  start <- time_time ;;
  try_except (recv_all_loop fuel timeout start)
             (fun e =>
                match e with
                | KeyboardInterrupt => Some (ret tt)
                | socket_timeout => Some (set_timed_out true)
                | socket_error => Some (ret tt)
                | NetcatError _ => Some (ret tt)
                | _ => None
                end) ;;
  t <- get _timeout ;;
  on_sock (sock_settimeout t) ;;
  r <- get buf ;;
  set_buf [] ;;
  ret r.

(** The [while len(self.buf) < n] loop of [recv_exactly]. *)
Fixpoint recv_exactly_loop (fuel : nat) (n : Z) (timeout : option Z) (start : Z)
  : M unit :=
  b <- get buf ;;
  if negb (len b <? n) then ret tt
  else
    match fuel with
    | O => out_of_fuel
    | S fuel' =>
        stop <- check_deadline timeout start ;;
        if stop : bool then ret tt
        else
          (b0 <- get buf ;;
           a <- on_sock (sock_recv (n - len b0)) ;;
           if len a =? 0
           then raise (NetcatError (closed_before n))
           else
             (b' <- get buf ;;
              set_buf (b' ++ a) ;;
              recv_exactly_loop fuel' n timeout start))
    end.

(** [recv_exactly(n, timeout)] *)
Definition recv_exactly (fuel : nat) (n : Z) (timeout : timeout_arg) : M bytes :=
  set_timed_out false ;;
  timeout <- resolve timeout ;;
  start <- time_time ;;
  try_except (recv_exactly_loop fuel n timeout start)
             (fun e =>
                match e with
                | KeyboardInterrupt => Some (ret tt)
                | socket_timeout => Some (set_timed_out true)
                | socket_error => Some (raise (NetcatError "Socket error!"))
                | _ => None
                end) ;;
  b <- get buf ;;
  set_buf (slice_from b n) ;;
  _log_recv (slice_to b n) ;;
  ret (slice_to b n).

End Clocked.

(** The [while s] loop of [send]. *)
Fixpoint send_loop (fuel : nat) (s : bytes) : M unit :=
  if negb (nonempty s) then ret tt
  else
    match fuel with
    | O => out_of_fuel
    | S fuel' =>
        implicit <- get peer_implicit ;;
        k <- (if implicit : bool then on_sock (sock_send s)
              else
                (p <- get peer ;;
                 match p with
                 | Some a => on_sock (sock_sendto s a)
                 | None => raise AttributeError
                 end)) ;;
        send_loop fuel' (skipn k s)
    end.

(** [send(s)] *)
Definition send (fuel : nat) (s : bytes) : M unit :=
  _log_send s ;;
  send_loop fuel s.

(** ** Construction *)

(** What the environment answers during [__init__]: the socket that
    [socket.socket(...)] creates, the connection and address that
    [accept()] returns, and the datagram and address that
    [recvfrom(1024)] returns. *)
Record Env := mkEnv {
  fresh_sock : Socket;
  accepted : Socket * addr;
  first_datagram : bytes * addr
}.

Definition new_netcat (s : Socket) (b : bytes) (p : option addr) (implicit : bool)
  : Netcat :=
  mkNetcat b s p implicit None false [] [] 0.

(** [Netcat(server, sock, listen, udp)]; [connect], [bind], [listen]
    and [accept] are taken to succeed. *)
Definition __init__ (env : Env) (server : option addr) (sock0 : option Socket)
  (listen : option addr) (udp : bool) : Res Netcat :=
  match sock0 with
  | None =>
      match server with
      | Some a => Ret (new_netcat (fresh_sock env) [] (Some a) true)
      | None =>
          match listen with
          | Some _ =>
              if negb udp then
                let '(conn, a) := accepted env in
                Ret (new_netcat conn [] (Some a) true)
              else
                let '(d, a) := first_datagram env in
                Ret (new_netcat (fresh_sock env) (firstn 1024 d) (Some a) false)
          | None => Raise ValueError
          end
      end
  | Some s => Ret (new_netcat s [] None true)
  end.

(** ** The two halves of a receive method

    Each looping method is its loop, run inside [try], followed by the
    statements after the [try].  The second halves are named here so
    that the methods can be unfolded around their loops. *)

(** [timeout] once ['default'] is replaced by [self._timeout]. *)
Definition resolved (timeout : timeout_arg) (nc : Netcat) : option Z :=
  match timeout with
  | Default => _timeout nc
  | NoTimeout => None
  | Secs t => Some t
  end.

(** The state in which a loop starts: [timed_out] reset, the clock
    read once for [start]. *)
Definition entering (nc : Netcat) : Netcat :=
  with_ticks (S (ticks nc)) (with_timed_out false nc).

(** [recv_until] after its [try]. *)
Definition recv_until_finish (s : bytes) : M bytes :=
  t <- get _timeout ;;
  on_sock (sock_settimeout t) ;;
  late <- get timed_out ;;
  index <- (if negb late then
              (b <- get buf ;;
               match find b s with
               | Some i => ret (Some (Z.of_nat i + len s))
               | None => raise ValueError
               end)
            else ret None) ;;
  r <- _head_buf index ;;
  _log_recv r ;;
  ret r.

(** [recv_all] after its [try]. *)
Definition recv_all_finish : M bytes :=
  t <- get _timeout ;;
  on_sock (sock_settimeout t) ;;
  r <- get buf ;;
  set_buf [] ;;
  ret r.

(** [recv_exactly] after its [try]. *)
Definition recv_exactly_finish (n : Z) : M bytes :=
  b <- get buf ;;
  set_buf (slice_from b n) ;;
  _log_recv (slice_to b n) ;;
  ret (slice_to b n).

(** ** Streams and sample connections *)

(** The bytes a script of reads still holds. *)
Definition pending (evs : list read_event) : bytes :=
  flat_map (fun e => match e with RData c => c | _ => [] end) evs.

(** An unlimited timeout: [timeout=None], or the default when the
    persistent default is [None]. *)
Definition unlimited (nc : Netcat) (timeout : timeout_arg) : Prop :=
  match timeout with
  | NoTimeout => True
  | Default => _timeout nc = None
  | Secs _ => False
  end.

(** A default the socket accepts: [None] or a number that is not
    negative. *)
Definition accepted_timeout (t : option Z) : Prop :=
  match t with Some z => 0 <= z | None => True end.

(** A blocking socket whose reads follow [evs]. *)
Definition idle_socket (evs : list read_event) : Socket :=
  mkSocket None evs [] [] [].

(** [Netcat(sock=...)] with [b] already in the residual buffer. *)
Definition connected (b : bytes) (evs : list read_event) : Netcat :=
  with_buf b (new_netcat (idle_socket evs) [] None true).

(** [b"ping\n"] *)
Definition ping_nl : bytes := ["p"; "i"; "n"; "g"; x0a]%byte.

(** A clock that advances by one unit at each reading. *)
Definition steady (i : nat) : Z := Z.of_nat i.

(** What a script of data chunks costs to read: every raw read of at
    least one byte takes a whole chunk or at least one byte of one. *)
Definition cost (chunks : list bytes) : nat :=
  (length chunks + length (concat chunks))%nat.

(** The chunks still queued after [k] bytes of the head chunk [c]
    were read. *)
Definition rest_chunks (k : nat) (c : bytes) (chunks : list bytes) : list bytes :=
  if nonempty (skipn k c) then skipn k c :: chunks else chunks.

(** The next raw read is zero-length: the script is over, or its head
    is an empty chunk. *)
Definition closes (evs : list read_event) : Prop :=
  evs = [] \/ exists rest, evs = RData [] :: rest.

(** ** Writes *)

(** The bytes a raw write put on the wire. *)
Definition transmitted (c : write_call) : bytes :=
  firstn (w_accepted c) (w_data c).

(** Successive raw writes of [s]: each one offers exactly what the
    writes before it did not accept. *)
Fixpoint advances (s : bytes) (calls : list write_call) : Prop :=
  match calls with
  | [] => s = []
  | c :: cs =>
      s <> [] /\ w_data c = s /\ (w_accepted c <= length s)%nat /\
      advances (skipn (w_accepted c) s) cs
  end.

(** A write that does not raise. *)
Definition accepts (e : write_event) : Prop :=
  match e with WAccept _ => True | WError => False end.

(** The address that [recvfrom] reported during construction. *)
Definition learned_peer (env : Env) : addr := snd (first_datagram env).

(** A datagram socket bound for listening: its first datagram is
    [b"hi"] from 10.0.0.7:4444, and its first two writes accept two
    bytes and then none. *)
Definition udp_env : Env :=
  mkEnv (mkSocket None [] [] [WAccept 2; WAccept 0] [])
        (idle_socket [], ("10.0.0.7", 4444))
        (["h"; "i"]%byte, ("10.0.0.7", 4444)).

(** [Netcat(listen=('0.0.0.0', 4444), udp=True)] in [udp_env]. *)
Definition udp_listener : Netcat :=
  new_netcat (fresh_sock udp_env) (firstn 1024 (fst (first_datagram udp_env)))
             (Some (learned_peer udp_env)) false.

(** ** Conservation of bytes *)

(** The bytes a call handed to its caller: what it returned, nothing
    when it raised. *)
Definition payload (r : Res bytes) : bytes :=
  match r with Ret a => a | _ => [] end.

(** A call conserves the bytes: the raw reads of the socket grew by
    [got], and what the call handed out followed by the residual
    buffer it leaves is the residual buffer it found followed by
    [got]. *)
Definition conserves (nc : Netcat) (out : Res bytes * Netcat) (got : list bytes)
  : Prop :=
  delivered (sock (snd out)) = delivered (sock nc) ++ got /\
  payload (fst out) ++ buf (snd out) = buf nc ++ concat got.

(** The exception a raw read raises at a failing event. *)
Definition raw_exception (ev : read_event) : option exn :=
  match ev with
  | RData _ => None
  | RTimeout => Some socket_timeout
  | RError => Some socket_error
  | RInterrupt => Some KeyboardInterrupt
  end.


(** The deadline a call gives the socket of its own accord: a number
    passed as [timeout]; [None] and ['default'] give none that the
    socket could refuse. *)
Definition own_deadline (timeout : timeout_arg) : option Z :=
  match timeout with
  | Secs T => Some T
  | _ => None
  end.


(** ** The interactive session

    [interact] connects the socket to a terminal.  Its environment is
    one more script: what each call of [select.select] reports, what
    each [os.read] of the input delivers, and what was written to the
    output.  Writing to the output and reading the input are taken to
    succeed. *)

(** The two objects handed to [select]. *)
Inductive channel :=
| TheSocket
| TheInput.

(** What the next [select.select([self.sock, insock], [], [])] does:
    return the list of the objects that are ready, be interrupted
    from the keyboard, or fail with an [OSError]. *)
Inductive select_event :=
| SReady (r : list channel)
| SInterrupt
| SFail.

Record Terminal := mkTerminal {
  ready : list select_event;      (* what the next select calls do *)
  typed : list bytes;             (* what the next reads of insock deliver *)
  shown : list bytes              (* what was written to outsock so far *)
}.

Definition Session := (Netcat * Terminal)%type.

(** A statement of [interact]: it acts on the object and on the
    terminal, and both survive a raise. *)
Definition IO (A : Type) : Type := Session -> Res A * Session.

Definition io_ret {A} (a : A) : IO A := fun st => (Ret a, st).

Definition io_bind {A B} (c : IO A) (k : A -> IO B) : IO B :=
  fun st =>
    match c st with
    | (Ret a, st') => k a st'
    | (Raise e, st') => (Raise e, st')
    | (Fuel, st') => (Fuel, st')
    end.

Declare Scope io_scope.
Delimit Scope io_scope with io.
Notation "x <- c1 ;; c2" := (io_bind c1 (fun x => c2))
  (at level 61, c1 at next level, right associativity) : io_scope.
Notation "c1 ;; c2" := (io_bind c1 (fun _ => c2))
  (at level 61, right associativity) : io_scope.

(** [try: body / except ...] around statements of [interact]. *)
Definition io_try {A} (body : IO A) (handler : exn -> option (IO A)) : IO A :=
  fun st =>
    match body st with
    | (Raise e, st') =>
        match handler e with
        | Some h => h st'
        | None => (Raise e, st')
        end
    | r => r
    end.

(** A method of [self] called from [interact]. *)
Definition on_self {A} (m : M A) : IO A :=
  fun st => let '(r, nc) := m (fst st) in (r, (nc, snd st)).

(** [select.select([self.sock, insock], [], [])]: when the script is
    over nothing becomes ready any more and the call does not return,
    which is reported as the spent budget. *)
Definition select_select : IO (list channel) :=
  fun st =>
    let tm := snd st in
    match ready tm with
    | [] => (Fuel, st)
    | SReady r :: rest => (Ret r, (fst st, mkTerminal rest (typed tm) (shown tm)))
    | SInterrupt :: rest =>
        (Raise KeyboardInterrupt, (fst st, mkTerminal rest (typed tm) (shown tm)))
    | SFail :: rest =>
        (Raise socket_error, (fst st, mkTerminal rest (typed tm) (shown tm)))
    end.

(** [os.read(insock.fileno(), k)]: at most [k] bytes of the chunk at
    the head, the rest of it stays; when the script is over the input
    is at end of file and every read returns [b'']. *)
Definition os_read (k : nat) : IO bytes :=
  fun st =>
    let tm := snd st in
    match typed tm with
    | [] => (Ret [], st)
    | c :: rest =>
        (Ret (firstn k c),
         (fst st,
          mkTerminal (ready tm)
                     (if nonempty (skipn k c) then skipn k c :: rest else rest)
                     (shown tm)))
    end.

(** [outsock.buffer.write(a); outsock.flush()] *)
Definition outsock_write (a : bytes) : IO unit :=
  fun st =>
    (Ret tt, (fst st, mkTerminal (ready (snd st)) (typed (snd st)) (shown (snd st) ++ [a]))).

(** The body of [for s in r], for one ready object. *)
Definition serve (sfuel : nat) (s : channel) (dropped : bool) : IO bool :=
  match s with
  | TheSocket =>
      (a <- on_self (recv 4096 NoTimeout) ;;
       if py_eq (PyBytes a) (PyBytes [])
       then io_ret true
       else (outsock_write a ;; io_ret dropped))%io
  | TheInput =>
      (b <- os_read 4096 ;;
       on_self (send sfuel b) ;;
       io_ret dropped)%io
  end.

(** [for s in r: ...], returning the value of [dropped] after it. *)
Fixpoint for_ready (sfuel : nat) (r : list channel) (dropped : bool) : IO bool :=
  match r with
  | [] => io_ret dropped
  | s :: r' =>
      (dropped' <- serve sfuel s dropped ;;
       for_ready sfuel r' dropped')%io
  end.

(** The [while not dropped] loop, entered with [dropped] false; [fuel]
    bounds its turns and [sfuel] those of each [send]. *)
Fixpoint interact_loop (fuel sfuel : nat) : IO unit :=
  match fuel with
  | O => fun st => (Fuel, st)
  | S fuel' =>
      (r <- select_select ;;
       dropped <- for_ready sfuel r false ;;
       if dropped : bool then io_ret tt else interact_loop fuel' sfuel)%io
  end.

(** [interact(insock, outsock)] *)
Definition interact (fuel sfuel : nat) : IO unit :=
  (on_self (set_timed_out false) ;;
   io_try
     (b <- on_self (get buf) ;;
      (if nonempty b then
         (outsock_write b ;;
          b' <- on_self (get buf) ;;
          on_self (_log_recv b') ;;
          on_self (set_buf []))
       else io_ret tt) ;;
      interact_loop fuel sfuel ;;
      fun st => (Raise (NetcatError EmptyString), st))
     (fun e =>
        match e with
        | KeyboardInterrupt => Some (io_ret tt)
        | socket_timeout => Some (io_ret tt)
        | socket_error => Some (io_ret tt)
        | NetcatError _ => Some (io_ret tt)
        | _ => None
        end))%io.

(** What a stretch of the session moved from the socket to the
    output: the raw reads grew by [got], the output grew by the
    residual buffer found and by [got], and no byte is held back. *)
Definition forwarded (st st' : Session) (got : list bytes) : Prop :=
  delivered (sock (fst st')) = delivered (sock (fst st)) ++ got /\
  concat (shown (snd st')) = concat (shown (snd st)) ++ buf (fst st) ++ concat got /\
  buf (fst st') = [].

(** What a stretch of the session moved from the input to the socket:
    the raw writes grew by [calls], and what they put on the wire,
    then [rest], then what the input still holds, is what the input
    held. *)
Definition relayed (st st' : Session) (calls : list write_call) (rest : bytes)
  : Prop :=
  written (sock (fst st')) = written (sock (fst st)) ++ calls /\
  concat (map transmitted calls) ++ rest ++ concat (typed (snd st'))
    = concat (typed (snd st)).

(** A session that starts with empty output and the given scripts. *)
Definition terminal (evs : list select_event) (input : list bytes) : Terminal :=
  mkTerminal evs input [].

(** The state in which the loop of [interact] starts: [timed_out]
    reset, and a nonempty residual buffer written to the output,
    reported to [_log_recv] and emptied. *)
Definition flushed (st : Session) : Session :=
  let nc := with_timed_out false (fst st) in
  if nonempty (buf nc) then
    (with_buf [] (with_recv_log (recv_log nc ++ [buf nc]) nc),
     mkTerminal (ready (snd st)) (typed (snd st)) (shown (snd st) ++ [buf nc]))
  else (nc, snd st).

(** How a statement ended, whatever it returned. *)
Definition void {A} (r : Res A) : Res unit :=
  match r with
  | Ret _ => Ret tt
  | Raise e => Raise e
  | Fuel => Fuel
  end.

(** Every [send] of the session completes: no raw write fails, an
    addressed write has its address, and the budget of a [send]
    outlasts the writes that accept only a part. *)
Definition writes_go_through (sfuel : nat) (nc : Netcat) : Prop :=
  Forall accepts (outgoing (sock nc)) /\
  (peer_implicit nc = false -> peer nc <> None) /\
  (length (outgoing (sock nc)) < sfuel)%nat.
(** ** Proof tactics *)

(** Raw reads are rewritten with their lemmas, not unfolded. *)
Arguments sock_recv : simpl never.

(** Unfold the setters and compute the projections of an explicit
    state. *)
Ltac fields :=
  unfold with_buf, with_sock, with_timed_out, with_recv_log, with_send_log,
    with_ticks, with__timeout;
  cbn [buf sock peer peer_implicit _timeout timed_out recv_log send_log ticks
       deadline incoming delivered outgoing written fst snd concat].

(** Split on the comparisons and emptiness tests in the goal. *)
Ltac split_tests :=
  repeat match goal with
    | |- context [if ?c <? ?d then _ else _] => destruct (c <? d); cbn
    | |- context [if nonempty ?c then _ else _] => destruct (nonempty c); cbn
    end.

(** * Properties *)

(** ** Slices and search *)

Lemma slice_to_nonneg (b : bytes) (n : Z) :
  0 <= n -> slice_to b n = firstn (Z.to_nat n) b.
Proof.
  intros Hn. unfold slice_to, slice_pos.
  destruct (Z.ltb_spec n 0); [lia | reflexivity].
Qed.

Lemma slice_from_nonneg (b : bytes) (n : Z) :
  0 <= n -> slice_from b n = skipn (Z.to_nat n) b.
Proof.
  intros Hn. unfold slice_from, slice_pos.
  destruct (Z.ltb_spec n 0); [lia | reflexivity].
Qed.

Lemma slice_to_len (b : bytes) : slice_to b (len b) = b.
Proof.
  rewrite slice_to_nonneg by (unfold len; lia).
  unfold len. rewrite Nat2Z.id. apply firstn_all.
Qed.

Lemma slice_from_len (b : bytes) : slice_from b (len b) = [].
Proof.
  rewrite slice_from_nonneg by (unfold len; lia).
  unfold len. rewrite Nat2Z.id. apply skipn_all.
Qed.

Lemma len_app (a b : bytes) : len (a ++ b) = len a + len b.
Proof. unfold len. rewrite length_app. lia. Qed.

Lemma len_nonneg (b : bytes) : 0 <= len b.
Proof. unfold len. lia. Qed.

Lemma nonempty_true (b : bytes) : nonempty b = true <-> b <> [].
Proof. destruct b; simpl; split; congruence. Qed.

Lemma nonempty_false (b : bytes) : nonempty b = false <-> b = [].
Proof. destruct b; simpl; split; congruence. Qed.

(** [startswith] says that [s] is a prefix. *)
Lemma startswith_prefix (b s : bytes) :
  startswith b s = true <-> exists rest, b = s ++ rest.
Proof.
  revert b. induction s as [|x s IH]; intros b; simpl.
  - split; [intros _; now exists b | reflexivity].
  - destruct b as [|y b].
    + split; [discriminate | intros [rest H]; discriminate].
    + rewrite andb_true_iff, IH. split.
      * intros [Hxy [rest ->]]. apply byte_dec_bl in Hxy. subst y. now exists rest.
      * intros [rest H]. injection H as -> ->. split; [now apply byte_dec_lb | now exists rest].
Qed.

Lemma startswith_app (b c s : bytes) :
  startswith b s = true -> startswith (b ++ c) s = true.
Proof.
  rewrite !startswith_prefix. intros [rest ->].
  exists (rest ++ c). now rewrite app_assoc.
Qed.

(** A mismatch inside [b] is not repaired by bytes that follow [b]. *)
Lemma startswith_app_false (b c s : bytes) :
  startswith b s = false -> (length s <= length b)%nat ->
  startswith (b ++ c) s = false.
Proof.
  revert b. induction s as [|x s IH]; intros b; simpl; [discriminate|].
  destruct b as [|y b]; simpl; [lia|].
  intros H Hlen. apply andb_false_iff in H. apply andb_false_iff.
  destruct H as [H|H]; [now left | right]. apply IH; [exact H | lia].
Qed.

Lemma startswith_length (b s : bytes) :
  startswith b s = true -> (length s <= length b)%nat.
Proof.
  rewrite startswith_prefix. intros [rest ->]. rewrite length_app. lia.
Qed.

Lemma find_bound (b s : bytes) (i : nat) :
  find b s = Some i -> (i + length s <= length b)%nat.
Proof.
  revert i. induction b as [|y b IH]; intros i; simpl.
  - destruct (startswith [] s) eqn:E; [|discriminate].
    intros [= <-]. apply startswith_length in E. simpl in *. lia.
  - destruct (startswith (y :: b) s) eqn:E.
    + intros [= <-]. apply startswith_length in E. simpl in *. lia.
    + destruct (find b s) as [j|]; simpl; [|discriminate].
      intros [= <-]. specialize (IH j eq_refl). lia.
Qed.

(** The first occurrence stays the first when bytes are appended. *)
Lemma find_app (b c s : bytes) (i : nat) :
  find b s = Some i -> find (b ++ c) s = Some i.
Proof.
  revert i. induction b as [|y b IH]; intros i; simpl.
  - destruct (startswith [] s) eqn:E; [|discriminate].
    intros [= <-]. apply (startswith_app [] c) in E. simpl in E.
    destruct c; simpl; now rewrite E.
  - destruct (startswith (y :: b) s) eqn:E.
    + intros [= <-]. apply (startswith_app _ c) in E. simpl in E. now rewrite E.
    + destruct (find b s) as [j|] eqn:Ej; simpl; [|discriminate].
      intros [= <-].
      assert (Hlen : (length s <= length (y :: b))%nat).
      { apply find_bound in Ej. simpl. lia. }
      apply (startswith_app_false _ c) in E; [|exact Hlen]. simpl in E.
      rewrite E. now rewrite (IH j eq_refl).
Qed.

Lemma contains_app (b c s : bytes) :
  contains b s = true -> contains (b ++ c) s = true.
Proof.
  unfold contains. destruct (find b s) as [i|] eqn:E; [|discriminate].
  now rewrite (find_app b c s i E).
Qed.

Lemma contains_prefix_false (b c s : bytes) :
  contains (b ++ c) s = false -> contains b s = false.
Proof.
  intros H. destruct (contains b s) eqn:E; [|reflexivity].
  apply (contains_app b c) in E. congruence.
Qed.

(** [find] returns an occurrence, and no occurrence starts before it. *)
Lemma find_occurrence (b s : bytes) (i : nat) :
  find b s = Some i ->
  b = firstn i b ++ s ++ skipn (i + length s) b /\
  forall j, (j < i)%nat -> startswith (skipn j b) s = false.
Proof.
  revert i. induction b as [|y b IH]; intros i; simpl.
  - destruct (startswith [] s) eqn:E; [|discriminate].
    intros [= <-]. apply startswith_prefix in E. destruct E as [rest E].
    destruct s; [|discriminate]. simpl. split; [reflexivity | intros j Hj; lia].
  - destruct (startswith (y :: b) s) eqn:E.
    + intros [= <-]. apply startswith_prefix in E. destruct E as [rest E].
      split; [|intros j Hj; lia].
      rewrite E at 1. simpl. f_equal. rewrite E, skipn_app, skipn_all, Nat.sub_diag.
      reflexivity.
    + destruct (find b s) as [j|] eqn:Ej; simpl; [|discriminate].
      intros [= <-]. destruct (IH j eq_refl) as [Hb Hmin]. split.
      * simpl. f_equal. exact Hb.
      * intros k Hk. destruct k as [|k]; [exact E|]. simpl. apply Hmin. lia.
Qed.

(** A bytes object never equals a str. *)
Lemma py_eq_bytes_str (b : bytes) (s : string) : py_eq (PyBytes b) (PyStr s) = false.
Proof. reflexivity. Qed.

(** ** The persistent default deadline *)

Lemma sock_settimeout_ok (t : option Z) (s : Socket) :
  accepted_timeout t ->
  sock_settimeout t s =
    (Ret tt, mkSocket t (incoming s) (delivered s) (outgoing s) (written s)).
Proof.
  destruct t as [z|]; simpl; intros H; [|reflexivity].
  destruct (Z.ltb_spec z 0); [lia | reflexivity].
Qed.

(** ** [recv] *)

(** The first branch of [recv]: a nonempty buffer is sliced and the
    method returns. *)
Lemma recv_buffered_run (n : Z) (timeout : timeout_arg) (nc : Netcat) :
  0 <= n -> buf nc <> [] ->
  recv n timeout nc =
    (Ret (firstn (Z.to_nat n) (buf nc)),
     with_recv_log (recv_log nc ++ [firstn (Z.to_nat n) (buf nc)])
       (with_buf (skipn (Z.to_nat n) (buf nc)) (with_timed_out false nc))).
Proof.
  intros Hn Hbuf. unfold recv, bind, set_timed_out, get. cbn.
  apply nonempty_true in Hbuf. rewrite Hbuf.
  rewrite slice_to_nonneg, slice_from_nonneg by assumption. reflexivity.
Qed.

(** C10: while the residual buffer is nonempty, [recv(n, timeout)]
    returns the first [min(n, len(buf))] buffered bytes at once: the
    socket is not read and its deadline is untouched, [timed_out] is
    false, and no [timeout] argument changes the outcome; so a call
    with fewer than [n] bytes buffered returns fewer than [n] bytes
    whatever the socket holds. *)
Theorem recv_serves_buffer_first (n : Z) (timeout : timeout_arg) (nc : Netcat)
  (Hn : 0 <= n) (Hbuf : buf nc <> []) :
  exists nc',
    recv n timeout nc = (Ret (firstn (Z.to_nat n) (buf nc)), nc') /\
    len (firstn (Z.to_nat n) (buf nc)) = Z.min n (len (buf nc)) /\
    buf nc' = skipn (Z.to_nat n) (buf nc) /\
    sock nc' = sock nc /\
    timed_out nc' = false /\
    (forall timeout', recv n timeout' nc = recv n timeout nc) /\
    (len (buf nc) < n -> len (firstn (Z.to_nat n) (buf nc)) < n).
Proof.
  assert (Hlen : len (firstn (Z.to_nat n) (buf nc)) = Z.min n (len (buf nc))).
  { unfold len. rewrite length_firstn. lia. }
  eexists. split; [apply recv_buffered_run; assumption|].
  repeat split; try reflexivity.
  - exact Hlen.
  - intros t. now rewrite !recv_buffered_run.
  - rewrite Hlen. lia.
Qed.

Lemma recv_serves_buffer_first_witness :
  exists nc',
    recv 2 (Secs 5) (connected ["a"%byte] [RData ["b"%byte]]) = (Ret ["a"%byte], nc') /\
    sock nc' = idle_socket [RData ["b"%byte]].
Proof.
  destruct (recv_serves_buffer_first 2 (Secs 5) (connected ["a"%byte] [RData ["b"%byte]]))
    as (nc' & Hrun & _ & _ & Hsock & _).
  - lia.
  - discriminate.
  - exists nc'. split; [exact Hrun | exact Hsock].
Defined.

(** C1 fails as stated: with one byte buffered and one more byte ready
    on the socket, [recv(2, timeout=None)] returns the buffered byte
    alone and does not read the socket, although two bytes are
    available from buffer-then-socket. *)
Lemma recv_returns_buffer_alone :
  let nc := connected ["a"%byte] [RData ["b"%byte]] in
  exists nc',
    recv 2 NoTimeout nc = (Ret ["a"%byte], nc') /\
    len (buf nc) < 2 /\
    sock nc' = sock nc /\
    len ["a"%byte] <> Z.min 2 (len (buf nc ++ pending (incoming (sock nc)))).
Proof.
  cbv zeta. eexists. split; [reflexivity|].
  repeat split; cbn; lia.
Qed.

(** C1, amended: with an unlimited timeout and [0 <= n], a nonempty
    residual buffer is served alone (its first [min(n, len(buf))]
    bytes, no raw read); on an empty buffer [recv] issues exactly one
    raw read bounded by [n] and returns exactly what that read
    delivers, without waiting for more. *)
Theorem recv_unlimited_one_read (n : Z) (timeout : timeout_arg) (nc : Netcat)
  (chunks : list bytes)
  (Hn : 0 <= n) (Hun : unlimited nc timeout)
  (Hdef : accepted_timeout (_timeout nc))
  (Hin : incoming (sock nc) = map RData chunks) :
  exists nc',
    recv n timeout nc =
      (Ret (firstn (Z.to_nat n) (if nonempty (buf nc) then buf nc else hd [] chunks)),
       nc') /\
    delivered (sock nc') =
      delivered (sock nc)
        ++ (if nonempty (buf nc) then [] else [firstn (Z.to_nat n) (hd [] chunks)]) /\
    buf nc' = skipn (Z.to_nat n) (buf nc) /\
    timed_out nc' = false.
Proof.
  destruct (nonempty (buf nc)) eqn:E.
  - apply nonempty_true in E.
    rewrite (recv_buffered_run n timeout nc Hn E).
    eexists. split; [reflexivity|]. cbn. rewrite app_nil_r. auto.
  - apply nonempty_false in E.
    assert (Hread : forall d,
      sock_recv n (mkSocket d (incoming (sock nc)) (delivered (sock nc))
                            (outgoing (sock nc)) (written (sock nc))) =
      (Ret (firstn (Z.to_nat n) (hd [] chunks)),
       mkSocket d
         (match chunks with
          | [] => []
          | c :: rest =>
              if nonempty (skipn (Z.to_nat n) c)
              then RData (skipn (Z.to_nat n) c) :: map RData rest
              else map RData rest
          end)
         (delivered (sock nc) ++ [firstn (Z.to_nat n) (hd [] chunks)])
         (outgoing (sock nc)) (written (sock nc)))).
    { intros d. unfold sock_recv. destruct (Z.ltb_spec n 0); [lia|].
      cbn. rewrite Hin. destruct chunks as [|c rest]; cbn.
      - now rewrite firstn_nil.
      - reflexivity. }
    destruct timeout as [| |t]; cbn in Hun; [| |contradiction];
      unfold recv, bind, set_timed_out, get, try_except, on_sock, ret, set_buf,
        _log_recv; cbn; rewrite E; cbn; rewrite ?E; cbn; rewrite Z.sub_0_r.
    + destruct (sock nc) as [d inc del out wr] eqn:Es. cbn in Hread, Hin |- *.
      rewrite Hread. cbn. rewrite Hun. cbn.
      eexists. split; [reflexivity|]. cbn. rewrite skipn_nil. auto.
    + rewrite Hread. cbn. rewrite sock_settimeout_ok by assumption. cbn.
      eexists. split; [reflexivity|]. cbn. rewrite skipn_nil. auto.
Qed.

Lemma recv_unlimited_one_read_witness :
  exists nc',
    recv 4 NoTimeout (connected [] [RData ping_nl]) =
      (Ret ["p"; "i"; "n"; "g"]%byte, nc') /\
    timed_out nc' = false.
Proof.
  destruct (recv_unlimited_one_read 4 NoTimeout (connected [] [RData ping_nl]) [ping_nl])
    as (nc' & Hrun & _ & _ & Ht).
  - lia.
  - exact I.
  - exact I.
  - reflexivity.
  - exists nc'. split; [exact Hrun | exact Ht].
Defined.

(** ** Raw reads against a script *)

Lemma sock_recv_chunk (k : Z) d c chunks tail del out wr :
  0 <= k ->
  sock_recv k (mkSocket d (map RData (c :: chunks) ++ tail) del out wr) =
    (Ret (firstn (Z.to_nat k) c),
     mkSocket d (map RData (rest_chunks (Z.to_nat k) c chunks) ++ tail)
              (del ++ [firstn (Z.to_nat k) c]) out wr).
Proof.
  intros Hk. unfold sock_recv, rest_chunks.
  destruct (Z.ltb_spec k 0); [lia|]. cbn.
  destruct (nonempty (skipn (Z.to_nat k) c)); reflexivity.
Qed.

Lemma sock_recv_closes (k : Z) d evs del out wr :
  0 <= k -> closes evs ->
  sock_recv k (mkSocket d evs del out wr) =
    (Ret [], mkSocket d (tl evs) (del ++ [[]]) out wr).
Proof.
  intros Hk Hc. unfold sock_recv.
  destruct (Z.ltb_spec k 0); [lia|]. cbn.
  destruct Hc as [->|[rest ->]]; cbn; [reflexivity|].
  now rewrite firstn_nil, skipn_nil.
Qed.

Lemma sock_recv_stalls (k : Z) d rest del out wr :
  0 <= k ->
  sock_recv k (mkSocket d (RTimeout :: rest) del out wr) =
    (Raise socket_timeout, mkSocket d rest del out wr).
Proof.
  intros Hk. unfold sock_recv.
  destruct (Z.ltb_spec k 0); [lia | reflexivity].
Qed.

Lemma rest_chunks_concat (k : nat) (c : bytes) (chunks : list bytes) :
  firstn k c ++ concat (rest_chunks k c chunks) = c ++ concat chunks.
Proof.
  unfold rest_chunks. destruct (nonempty (skipn k c)) eqn:E; simpl.
  - now rewrite app_assoc, firstn_skipn.
  - apply nonempty_false in E. rewrite <- (firstn_skipn k c) at 2.
    now rewrite E, app_nil_r.
Qed.

Lemma rest_chunks_cost (k : nat) (c : bytes) (chunks : list bytes) :
  (0 < k)%nat -> (cost (rest_chunks k c chunks) < cost (c :: chunks))%nat.
Proof.
  intros Hk. unfold rest_chunks, cost.
  destruct (nonempty (skipn k c)) eqn:E; simpl; rewrite ?length_app.
  - rewrite length_skipn.
    assert (length (skipn k c) <> 0)%nat.
    { apply nonempty_true in E. destruct (skipn k c); simpl; congruence. }
    rewrite length_skipn in *. lia.
  - lia.
Qed.

Lemma rest_chunks_nonempty (k : nat) (c : bytes) (chunks : list bytes) :
  Forall (fun x : bytes => x <> []) chunks ->
  Forall (fun x : bytes => x <> []) (rest_chunks k c chunks).
Proof.
  intros H. unfold rest_chunks. destruct (nonempty (skipn k c)) eqn:E; [|exact H].
  constructor; [now apply nonempty_true | exact H].
Qed.

Lemma firstn_nonempty (k : nat) (c : bytes) :
  (0 < k)%nat -> c <> [] -> firstn k c <> [].
Proof. destruct k; [lia|]. destruct c; simpl; congruence. Qed.


(** ** The receive loops, one iteration at a time *)

Section Loops.

Variable clock : nat -> Z.

(** The deadline check either stops the loop with [timed_out] set, or
    lets it go on after giving the socket the time that remains; it
    touches nothing else but the count of clock readings. *)
Lemma check_deadline_cases timeout start b d inc del out wr p pi t late rl sl tk :
  (exists tk',
     check_deadline clock timeout start
       (mkNetcat b (mkSocket d inc del out wr) p pi t late rl sl tk) =
     (Ret true, mkNetcat b (mkSocket d inc del out wr) p pi t true rl sl tk'))
  \/
  (exists d' tk',
     check_deadline clock timeout start
       (mkNetcat b (mkSocket d inc del out wr) p pi t late rl sl tk) =
     (Ret false, mkNetcat b (mkSocket d' inc del out wr) p pi t late rl sl tk')).
Proof.
  destruct timeout as [T|]; cbn.
  - unfold bind, time_time. cbn.
    destruct (Z.gtb_spec (clock tk - start) T) as [Hgt|Hle].
    + left. eexists. reflexivity.
    + right. unfold on_sock. cbn.
      destruct (Z.ltb_spec (T - (clock tk - start)) 0); [lia|].
      do 2 eexists. reflexivity.
  - right. do 2 eexists. reflexivity.
Qed.

Lemma check_deadline_unlimited start nc :
  check_deadline clock None start nc = (Ret false, nc).
Proof. reflexivity. Qed.

Lemma recv_until_loop_done fuel s timeout start nc :
  contains (buf nc) s = true ->
  recv_until_loop clock fuel s timeout start nc = (Ret tt, nc).
Proof.
  intros H. destruct fuel; cbn; unfold bind, get; cbn; now rewrite H.
Qed.

Lemma recv_until_loop_step fuel s timeout start nc :
  contains (buf nc) s = false ->
  recv_until_loop clock (S fuel) s timeout start nc =
    match check_deadline clock timeout start nc with
    | (Ret true, nc1) => (Ret tt, nc1)
    | (Ret false, nc1) =>
        match on_sock (sock_recv 4096) nc1 with
        | (Ret a, nc2) =>
            recv_until_loop clock fuel s timeout start
              (with_buf (buf nc2 ++ a) (with_recv_log (recv_log nc2 ++ [a]) nc2))
        | (Raise e, nc2) => (Raise e, nc2)
        | (Fuel, nc2) => (Fuel, nc2)
        end
    | (Raise e, nc1) => (Raise e, nc1)
    | (Fuel, nc1) => (Fuel, nc1)
    end.
Proof.
  intros H. cbn. unfold bind, get. cbn. rewrite H.
  destruct (check_deadline clock timeout start nc) as [[[|]|e|] nc1]; try reflexivity.
  all: destruct (on_sock (sock_recv 4096) nc1) as [[a|e|] nc2]; reflexivity.
Qed.

Lemma recv_all_loop_step fuel timeout start nc :
  recv_all_loop clock (S fuel) timeout start nc =
    match check_deadline clock timeout start nc with
    | (Ret true, nc1) => (Ret tt, nc1)
    | (Ret false, nc1) =>
        match on_sock (sock_recv 4096) nc1 with
        | (Ret a, nc2) =>
            if nonempty a
            then recv_all_loop clock fuel timeout start
                   (with_recv_log (recv_log nc2 ++ [a]) (with_buf (buf nc2 ++ a) nc2))
            else (Ret tt, nc2)
        | (Raise e, nc2) => (Raise e, nc2)
        | (Fuel, nc2) => (Fuel, nc2)
        end
    | (Raise e, nc1) => (Raise e, nc1)
    | (Fuel, nc1) => (Fuel, nc1)
    end.
Proof.
  cbn. unfold bind, get. cbn.
  destruct (check_deadline clock timeout start nc) as [[[|]|e|] nc1]; try reflexivity.
  all: destruct (on_sock (sock_recv 4096) nc1) as [[a|e|] nc2]; try reflexivity.
  all: destruct (nonempty a); reflexivity.
Qed.

Lemma recv_exactly_loop_done fuel n timeout start nc :
  n <= len (buf nc) ->
  recv_exactly_loop clock fuel n timeout start nc = (Ret tt, nc).
Proof.
  intros H. destruct fuel; cbn; unfold bind, get; cbn;
    destruct (Z.ltb_spec (len (buf nc)) n); try lia; reflexivity.
Qed.

Lemma recv_exactly_loop_step fuel n timeout start nc :
  len (buf nc) < n ->
  recv_exactly_loop clock (S fuel) n timeout start nc =
    match check_deadline clock timeout start nc with
    | (Ret true, nc1) => (Ret tt, nc1)
    | (Ret false, nc1) =>
        match on_sock (sock_recv (n - len (buf nc1))) nc1 with
        | (Ret a, nc2) =>
            if len a =? 0
            then (Raise (NetcatError (closed_before n)), nc2)
            else recv_exactly_loop clock fuel n timeout start
                   (with_buf (buf nc2 ++ a) nc2)
        | (Raise e, nc2) => (Raise e, nc2)
        | (Fuel, nc2) => (Fuel, nc2)
        end
    | (Raise e, nc1) => (Raise e, nc1)
    | (Fuel, nc1) => (Fuel, nc1)
    end.
Proof.
  intros H. cbn. unfold bind, get. cbn.
  destruct (Z.ltb_spec (len (buf nc)) n); [|lia]. cbn.
  destruct (check_deadline clock timeout start nc) as [[[|]|e|] nc1]; try reflexivity.
  all: destruct (on_sock (sock_recv (n - len (buf nc1))) nc1) as [[a|e|] nc2];
    try reflexivity.
  all: destruct (len a =? 0); reflexivity.
Qed.

End Loops.

(** ** The receive loops against a script that starts with data *)

Section DataPhase.

Variable clock : nat -> Z.
Variable timeout : option Z.
Variable start : Z.
Variable tail : list read_event.
Variable out : list write_event.
Variable wr : list write_call.
Variable p : option addr.
Variable pi : bool.
Variable t : option Z.
Variable sl : list bytes.

(** The state of a connection during a receive: the buffer, the
    socket's deadline, its script and its reads, [timed_out], the
    receive log and the clock readings; the rest is fixed. *)
Local Abbreviation St b d inc del late rl tk :=
  (mkNetcat b (mkSocket d inc del out wr) p pi t late rl sl tk).

(** [recv_until] on chunks followed by [tail]: the delimiter turns
    up, or the clock passes the bound, or every chunk is taken in and
    the loop goes on against [tail]. *)
Lemma recv_until_loop_data (s : bytes) (fuel : nat) :
  forall (chunks : list bytes) (b : bytes) d del late rl tk,
    (cost chunks <= fuel)%nat ->
    (exists got chunks' d' rl' tk',
        recv_until_loop clock fuel s timeout start
          (St b d (map RData chunks ++ tail) del late rl tk) =
        (Ret tt, St (b ++ concat got) d' (map RData chunks' ++ tail) (del ++ got)
                    late rl' tk') /\
        contains (b ++ concat got) s = true /\
        concat got ++ concat chunks' = concat chunks /\
        (cost chunks' <= cost chunks)%nat /\
        (Forall (fun x : bytes => x <> []) chunks ->
         Forall (fun x : bytes => x <> []) chunks'))
    \/
    (exists got chunks' d' rl' tk',
        timeout <> None /\
        recv_until_loop clock fuel s timeout start
          (St b d (map RData chunks ++ tail) del late rl tk) =
        (Ret tt, St (b ++ concat got) d' (map RData chunks' ++ tail) (del ++ got)
                    true rl' tk') /\
        contains (b ++ concat got) s = false /\
        concat got ++ concat chunks' = concat chunks)
    \/
    (exists got d' rl' tk' fuel',
        (fuel <= fuel' + cost chunks)%nat /\
        contains (b ++ concat chunks) s = false /\
        concat got = concat chunks /\
        recv_until_loop clock fuel s timeout start
          (St b d (map RData chunks ++ tail) del late rl tk) =
        recv_until_loop clock fuel' s timeout start
          (St (b ++ concat chunks) d' tail (del ++ got) late rl' tk')).
Proof.
  induction fuel as [|fuel IH]; intros chunks b d del late rl tk Hcost.
  - destruct chunks as [|c chunks]; [|unfold cost in Hcost; simpl in Hcost; lia].
    destruct (contains b s) eqn:Hb.
    + left. exists [], [], d, rl, tk. fields. rewrite !app_nil_r.
      split; [|auto]. now apply recv_until_loop_done.
    + right. right. exists [], d, rl, tk, 0%nat. fields. rewrite !app_nil_r.
      repeat split; auto.
  - destruct (contains b s) eqn:Hb.
    { left. exists [], chunks, d, rl, tk. fields. rewrite !app_nil_r.
      split; [|auto]. now apply recv_until_loop_done. }
    destruct chunks as [|c chunks].
    { right. right. exists [], d, rl, tk, (S fuel). fields. rewrite !app_nil_r.
      repeat split; auto. unfold cost. simpl. lia. }
    rewrite recv_until_loop_step by exact Hb.
    destruct (check_deadline_cases clock timeout start b d
                (map RData (c :: chunks) ++ tail) del out wr p pi t late rl sl tk)
      as [[tk' Hck]|[d' [tk' Hck]]]; rewrite Hck.
    { right. left. exists [], (c :: chunks), d, rl, tk'. fields. rewrite !app_nil_r.
      repeat split; auto.
      intros ->. cbn in Hck. discriminate. }
    unfold on_sock. fields. rewrite sock_recv_chunk by lia. fields.
    set (a := firstn (Z.to_nat 4096) c).
    assert (Hlt : (cost (rest_chunks (Z.to_nat 4096) c chunks) <= fuel)%nat).
    { pose proof (rest_chunks_cost (Z.to_nat 4096) c chunks). lia. }
    pose proof (rest_chunks_concat (Z.to_nat 4096) c chunks) as Hcat. fold a in Hcat.
    destruct (IH (rest_chunks (Z.to_nat 4096) c chunks) (b ++ a) d' (del ++ [a])
                 late (rl ++ [a]) tk' Hlt)
      as [(got & chunks' & d2 & rl2 & tk2 & Hrun & Hfound & Hsplit & Hle & Hall)
         |[(got & chunks' & d2 & rl2 & tk2 & Hto & Hrun & Hnot & Hsplit)
          |(got & d2 & rl2 & tk2 & fuel' & Hfuel & Hnot & Hall & Hrun)]].
    + left. exists (a :: got), chunks', d2, rl2, tk2. fields.
      rewrite <- ?app_assoc in *. repeat split; auto.
      * rewrite Hsplit. exact Hcat.
      * pose proof (rest_chunks_cost (Z.to_nat 4096) c chunks). lia.
      * intros Hne. apply Hall, rest_chunks_nonempty.
        exact (Forall_inv_tail Hne).
    + right. left. exists (a :: got), chunks', d2, rl2, tk2. fields.
      rewrite <- ?app_assoc in *. repeat split; auto.
      rewrite Hsplit. exact Hcat.
    + right. right. exists (a :: got), d2, rl2, tk2, fuel'. fields.
      rewrite <- ?app_assoc in *. rewrite Hcat in *.
      repeat split; auto.
      * pose proof (rest_chunks_cost (Z.to_nat 4096) c chunks). lia.
      * now rewrite Hall.
Qed.

(** [recv_all] on nonempty chunks followed by [tail]: the clock
    passes the bound, or every chunk is taken in and the loop goes on
    against [tail]. *)
Lemma recv_all_loop_data (fuel : nat) :
  forall (chunks : list bytes) (b : bytes) d del late rl tk,
    Forall (fun x : bytes => x <> []) chunks ->
    (cost chunks <= fuel)%nat ->
    (exists got chunks' d' rl' tk',
        timeout <> None /\
        recv_all_loop clock fuel timeout start
          (St b d (map RData chunks ++ tail) del late rl tk) =
        (Ret tt, St (b ++ concat got) d' (map RData chunks' ++ tail) (del ++ got)
                    true rl' tk') /\
        concat got ++ concat chunks' = concat chunks)
    \/
    (exists got d' rl' tk' fuel',
        (fuel <= fuel' + cost chunks)%nat /\
        concat got = concat chunks /\
        recv_all_loop clock fuel timeout start
          (St b d (map RData chunks ++ tail) del late rl tk) =
        recv_all_loop clock fuel' timeout start
          (St (b ++ concat chunks) d' tail (del ++ got) late rl' tk')).
Proof.
  induction fuel as [|fuel IH]; intros chunks b d del late rl tk Hne Hcost.
  - destruct chunks as [|c chunks]; [|unfold cost in Hcost; simpl in Hcost; lia].
    right. exists [], d, rl, tk, 0%nat. fields. rewrite !app_nil_r. auto.
  - destruct chunks as [|c chunks].
    { right. exists [], d, rl, tk, (S fuel). fields. rewrite !app_nil_r.
      repeat split; auto. unfold cost. simpl. lia. }
    rewrite recv_all_loop_step.
    destruct (check_deadline_cases clock timeout start b d
                (map RData (c :: chunks) ++ tail) del out wr p pi t late rl sl tk)
      as [[tk' Hck]|[d' [tk' Hck]]]; rewrite Hck.
    { left. exists [], (c :: chunks), d, rl, tk'. fields. rewrite !app_nil_r.
      repeat split; auto.
      intros ->. cbn in Hck. discriminate. }
    unfold on_sock. fields. rewrite sock_recv_chunk by lia. fields.
    set (a := firstn (Z.to_nat 4096) c).
    pose proof (Forall_inv Hne) as Hc. pose proof (Forall_inv_tail Hne) as Hrest.
    cbv beta in Hc.
    assert (Ha : nonempty a = true).
    { apply nonempty_true, firstn_nonempty; [lia | exact Hc]. }
    rewrite Ha.
    assert (Hlt : (cost (rest_chunks (Z.to_nat 4096) c chunks) <= fuel)%nat).
    { pose proof (rest_chunks_cost (Z.to_nat 4096) c chunks). lia. }
    pose proof (rest_chunks_concat (Z.to_nat 4096) c chunks) as Hcat. fold a in Hcat.
    destruct (IH (rest_chunks (Z.to_nat 4096) c chunks) (b ++ a) d' (del ++ [a])
                 late (rl ++ [a]) tk'
                 (rest_chunks_nonempty (Z.to_nat 4096) c chunks Hrest) Hlt)
      as [(got & chunks' & d2 & rl2 & tk2 & Hto & Hrun & Hsplit)
         |(got & d2 & rl2 & tk2 & fuel' & Hfuel & Hall & Hrun)].
    + left. exists (a :: got), chunks', d2, rl2, tk2. fields.
      rewrite <- ?app_assoc in *. repeat split; auto.
      rewrite Hsplit. exact Hcat.
    + right. exists (a :: got), d2, rl2, tk2, fuel'. fields.
      rewrite <- ?app_assoc in *. rewrite Hcat in *.
      repeat split; auto.
      * pose proof (rest_chunks_cost (Z.to_nat 4096) c chunks). lia.
      * now rewrite Hall.
Qed.

(** [recv_exactly] on nonempty chunks that do not add up to [n],
    followed by [tail]: likewise. *)
Lemma recv_exactly_loop_data (n : Z) (fuel : nat) :
  forall (chunks : list bytes) (b : bytes) d del late rl tk,
    Forall (fun x : bytes => x <> []) chunks ->
    len b + len (concat chunks) < n ->
    (cost chunks <= fuel)%nat ->
    (exists got chunks' d' tk',
        timeout <> None /\
        recv_exactly_loop clock fuel n timeout start
          (St b d (map RData chunks ++ tail) del late rl tk) =
        (Ret tt, St (b ++ concat got) d' (map RData chunks' ++ tail) (del ++ got)
                    true rl tk') /\
        concat got ++ concat chunks' = concat chunks)
    \/
    (exists got d' tk' fuel',
        (fuel <= fuel' + cost chunks)%nat /\
        concat got = concat chunks /\
        recv_exactly_loop clock fuel n timeout start
          (St b d (map RData chunks ++ tail) del late rl tk) =
        recv_exactly_loop clock fuel' n timeout start
          (St (b ++ concat chunks) d' tail (del ++ got) late rl tk')).
Proof.
  induction fuel as [|fuel IH]; intros chunks b d del late rl tk Hne Hn Hcost.
  - destruct chunks as [|c chunks]; [|unfold cost in Hcost; simpl in Hcost; lia].
    right. exists [], d, tk, 0%nat. fields. rewrite !app_nil_r. auto.
  - destruct chunks as [|c chunks].
    { right. exists [], d, tk, (S fuel). fields. rewrite !app_nil_r.
      repeat split; auto. unfold cost. simpl. lia. }
    assert (Hb : len b < n) by (pose proof (len_nonneg (concat (c :: chunks))); lia).
    rewrite recv_exactly_loop_step by exact Hb.
    destruct (check_deadline_cases clock timeout start b d
                (map RData (c :: chunks) ++ tail) del out wr p pi t late rl sl tk)
      as [[tk' Hck]|[d' [tk' Hck]]]; rewrite Hck.
    { left. exists [], (c :: chunks), d, tk'. fields. rewrite !app_nil_r.
      repeat split; auto.
      intros ->. cbn in Hck. discriminate. }
    unfold on_sock. fields. rewrite sock_recv_chunk by lia. fields.
    set (k := Z.to_nat (n - len b)).
    set (a := firstn k c).
    pose proof (Forall_inv Hne) as Hc. pose proof (Forall_inv_tail Hne) as Hrest.
    cbv beta in Hc.
    assert (Ha : a <> []) by (apply firstn_nonempty; [lia | exact Hc]).
    assert (Hz : (len a =? 0) = false).
    { apply Z.eqb_neq. unfold len. destruct a; simpl in *; [congruence | lia]. }
    rewrite Hz.
    assert (Hlt : (cost (rest_chunks k c chunks) <= fuel)%nat).
    { pose proof (rest_chunks_cost k c chunks). lia. }
    pose proof (rest_chunks_concat k c chunks) as Hcat. fold a in Hcat.
    assert (Hn' : len (b ++ a) + len (concat (rest_chunks k c chunks)) < n).
    { rewrite len_app, <- Z.add_assoc, <- len_app, Hcat. exact Hn. }
    destruct (IH (rest_chunks k c chunks) (b ++ a) d' (del ++ [a]) late rl tk'
                 (rest_chunks_nonempty k c chunks Hrest) Hn' Hlt)
      as [(got & chunks' & d2 & tk2 & Hto & Hrun & Hsplit)
         |(got & d2 & tk2 & fuel' & Hfuel & Hall & Hrun)].
    + left. exists (a :: got), chunks', d2, tk2. fields.
      rewrite <- ?app_assoc in *. repeat split; auto.
      rewrite Hsplit. exact Hcat.
    + right. exists (a :: got), d2, tk2, fuel'. fields.
      rewrite <- ?app_assoc in *. rewrite Hcat in *.
      repeat split; auto.
      * pose proof (rest_chunks_cost k c chunks). lia.
      * now rewrite Hall.
Qed.

End DataPhase.

(** ** The methods around their loops *)

Section Unfolding.

Variable clock : nat -> Z.

Lemma resolve_resolved (timeout : timeout_arg) (nc : Netcat) :
  resolve timeout nc = (Ret (resolved timeout nc), nc).
Proof. destruct timeout; reflexivity. Qed.

Lemma resolved_unlimited (timeout : timeout_arg) (nc : Netcat) :
  unlimited nc timeout -> resolved timeout nc = None.
Proof. destruct timeout; cbn; intros H; [exact H | reflexivity | contradiction]. Qed.

Lemma recv_until_unfold fuel s timeout nc :
  recv_until clock fuel s timeout nc =
    match recv_until_loop clock fuel s (resolved timeout nc) (clock (ticks nc))
            (entering nc) with
    | (Ret _, nc1) => recv_until_finish s nc1
    | (Raise socket_timeout, nc1) => recv_until_finish s (with_timed_out true nc1)
    | (Raise e, nc1) => (Raise e, nc1)
    | (Fuel, nc1) => (Fuel, nc1)
    end.
Proof.
  unfold recv_until, entering.
  unfold bind at 1. unfold set_timed_out at 1.
  unfold bind at 1. rewrite resolve_resolved.
  replace (resolved timeout (with_timed_out false nc)) with (resolved timeout nc)
    by (destruct timeout; reflexivity).
  unfold bind at 1. unfold time_time at 1. cbn [ticks with_timed_out].
  unfold bind at 1. unfold try_except.
  destruct (recv_until_loop clock fuel s (resolved timeout nc) (clock (ticks nc))
              (with_ticks (S (ticks nc)) (with_timed_out false nc)))
    as [[[]|e|] nc1]; try reflexivity; destruct e; reflexivity.
Qed.

Lemma recv_all_unfold fuel timeout nc :
  recv_all clock fuel timeout nc =
    match recv_all_loop clock fuel (resolved timeout nc) (clock (ticks nc))
            (entering nc) with
    | (Ret _, nc1) => recv_all_finish nc1
    | (Raise socket_timeout, nc1) => recv_all_finish (with_timed_out true nc1)
    | (Raise KeyboardInterrupt, nc1) => recv_all_finish nc1
    | (Raise socket_error, nc1) => recv_all_finish nc1
    | (Raise (NetcatError _), nc1) => recv_all_finish nc1
    | (Raise e, nc1) => (Raise e, nc1)
    | (Fuel, nc1) => (Fuel, nc1)
    end.
Proof.
  unfold recv_all, entering.
  unfold bind at 1. unfold set_timed_out at 1.
  unfold bind at 1. rewrite resolve_resolved.
  replace (resolved timeout (with_timed_out false nc)) with (resolved timeout nc)
    by (destruct timeout; reflexivity).
  unfold bind at 1. unfold time_time at 1. cbn [ticks with_timed_out].
  unfold bind at 1. unfold try_except.
  destruct (recv_all_loop clock fuel (resolved timeout nc) (clock (ticks nc))
              (with_ticks (S (ticks nc)) (with_timed_out false nc)))
    as [[[]|e|] nc1]; try reflexivity; destruct e; reflexivity.
Qed.

Lemma recv_exactly_unfold fuel n timeout nc :
  recv_exactly clock fuel n timeout nc =
    match recv_exactly_loop clock fuel n (resolved timeout nc) (clock (ticks nc))
            (entering nc) with
    | (Ret _, nc1) => recv_exactly_finish n nc1
    | (Raise socket_timeout, nc1) => recv_exactly_finish n (with_timed_out true nc1)
    | (Raise KeyboardInterrupt, nc1) => recv_exactly_finish n nc1
    | (Raise socket_error, nc1) => (Raise (NetcatError "Socket error!"), nc1)
    | (Raise e, nc1) => (Raise e, nc1)
    | (Fuel, nc1) => (Fuel, nc1)
    end.
Proof.
  unfold recv_exactly, entering.
  unfold bind at 1. unfold set_timed_out at 1.
  unfold bind at 1. rewrite resolve_resolved.
  replace (resolved timeout (with_timed_out false nc)) with (resolved timeout nc)
    by (destruct timeout; reflexivity).
  unfold bind at 1. unfold time_time at 1. cbn [ticks with_timed_out].
  unfold bind at 1. unfold try_except.
  destruct (recv_exactly_loop clock fuel n (resolved timeout nc) (clock (ticks nc))
              (with_ticks (S (ticks nc)) (with_timed_out false nc)))
    as [[[]|e|] nc1]; try reflexivity; destruct e; reflexivity.
Qed.

End Unfolding.

(** ** What follows the loops *)

Section Finishing.

Variable out : list write_event.
Variable wr : list write_call.
Variable p : option addr.
Variable pi : bool.
Variable t : option Z.
Variable sl : list bytes.
Hypothesis Ht : accepted_timeout t.

Local Abbreviation St b d inc del late rl tk :=
  (mkNetcat b (mkSocket d inc del out wr) p pi t late rl sl tk).

(** With the delimiter at [i], [recv_until] returns up to its end,
    keeps the rest, and restores the default deadline. *)
Lemma recv_until_finish_found (s b : bytes) (i : nat) d inc del rl tk :
  find b s = Some i ->
  recv_until_finish s (St b d inc del false rl tk) =
    (Ret (firstn (i + length s) b),
     St (skipn (i + length s) b) t inc del false
        (rl ++ [firstn (i + length s) b]) tk).
Proof.
  intros Hfind. unfold recv_until_finish, bind, get, on_sock, _head_buf. fields.
  rewrite sock_settimeout_ok by exact Ht. fields. cbn [negb]. fields.
  rewrite Hfind. unfold ret, bind, get, set_buf, _log_recv. fields.
  assert (Hpos : 0 <= Z.of_nat i + len s) by (unfold len; lia).
  rewrite slice_to_nonneg, slice_from_nonneg by exact Hpos.
  replace (Z.to_nat (Z.of_nat i + len s)) with (i + length s)%nat
    by (unfold len; lia).
  reflexivity.
Qed.

(** After a timeout, [recv_until] returns the whole buffer and leaves
    none of it. *)
Lemma recv_until_finish_late (s b : bytes) d inc del rl tk :
  recv_until_finish s (St b d inc del true rl tk) =
    (Ret b, St [] t inc del true (rl ++ [b]) tk).
Proof.
  unfold recv_until_finish, bind, get, on_sock, _head_buf. fields.
  rewrite sock_settimeout_ok by exact Ht. fields. cbn [negb].
  unfold ret, bind, get, set_buf, _log_recv. fields.
  now rewrite slice_to_len, slice_from_len.
Qed.

Lemma recv_all_finish_run (b : bytes) d inc del late rl tk :
  recv_all_finish (St b d inc del late rl tk) =
    (Ret b, St [] t inc del late rl tk).
Proof.
  unfold recv_all_finish, bind, get, on_sock. fields.
  rewrite sock_settimeout_ok by exact Ht. reflexivity.
Qed.

Lemma recv_exactly_finish_run (n : Z) (b : bytes) d inc del late rl tk :
  recv_exactly_finish n (St b d inc del late rl tk) =
    (Ret (slice_to b n),
     St (slice_from b n) d inc del late (rl ++ [slice_to b n]) tk).
Proof. reflexivity. Qed.

End Finishing.

(** ** The receive loops at a stalled or closed peer *)

Section TailPhase.

Variable clock : nat -> Z.
Variable timeout : option Z.
Variable start : Z.
Variable out : list write_event.
Variable wr : list write_call.
Variable p : option addr.
Variable pi : bool.
Variable t : option Z.
Variable sl : list bytes.

Local Abbreviation St b d inc del late rl tk :=
  (mkNetcat b (mkSocket d inc del out wr) p pi t late rl sl tk).

(** [recv_until], delimiter not yet seen, next read times out. *)
Lemma recv_until_loop_stalls (s : bytes) (fuel : nat) (b : bytes) d rest del late rl tk :
  contains b s = false ->
  (exists tk',
      timeout <> None /\
      recv_until_loop clock (S fuel) s timeout start
        (St b d (RTimeout :: rest) del late rl tk) =
      (Ret tt, St b d (RTimeout :: rest) del true rl tk'))
  \/
  (exists d' tk',
      recv_until_loop clock (S fuel) s timeout start
        (St b d (RTimeout :: rest) del late rl tk) =
      (Raise socket_timeout, St b d' rest del late rl tk')).
Proof.
  intros Hb. rewrite recv_until_loop_step by exact Hb.
  destruct (check_deadline_cases clock timeout start b d (RTimeout :: rest) del
              out wr p pi t late rl sl tk)
    as [[tk' Hck]|[d' [tk' Hck]]]; rewrite Hck.
  - left. exists tk'. split; [|reflexivity].
    intros ->. cbn in Hck. discriminate.
  - right. exists d', tk'. unfold on_sock. fields.
    rewrite sock_recv_stalls by lia. reflexivity.
Qed.


(** [recv_all], next read zero-length: the loop ends quietly. *)
Lemma recv_all_loop_closes (fuel : nat) (b : bytes) d evs del late rl tk :
  closes evs ->
  (exists tk',
      timeout <> None /\
      recv_all_loop clock (S fuel) timeout start (St b d evs del late rl tk) =
      (Ret tt, St b d evs del true rl tk'))
  \/
  (exists d' tk',
      recv_all_loop clock (S fuel) timeout start (St b d evs del late rl tk) =
      (Ret tt, St b d' (tl evs) (del ++ [[]]) late rl tk')).
Proof.
  intros Hc. rewrite recv_all_loop_step.
  destruct (check_deadline_cases clock timeout start b d evs del
              out wr p pi t late rl sl tk)
    as [[tk' Hck]|[d' [tk' Hck]]]; rewrite Hck.
  - left. exists tk'. split; [|reflexivity].
    intros ->. cbn in Hck. discriminate.
  - right. exists d', tk'. unfold on_sock. fields.
    rewrite sock_recv_closes by (lia || exact Hc). reflexivity.
Qed.


End TailPhase.

(** ** [recv_until] then [recv_all] *)

Lemma unlimited_same (nc nc' : Netcat) (timeout : timeout_arg) :
  _timeout nc' = _timeout nc -> unlimited nc timeout -> unlimited nc' timeout.
Proof. destruct timeout; cbn; congruence. Qed.

(** C8: when the stream (what is buffered, then what the socket
    delivers before the peer closes) contains the delimiter [d],
    [recv_until(d)] followed by [recv_all()], both without a
    deadline, return [pre ++ d] and [post], where [pre ++ d ++ post]
    is the whole stream and [d] does not occur in it before [pre]
    ends: nothing after the delimiter is lost. *)
Theorem recv_until_then_recv_all (clock : nat -> Z) (fuel : nat) (d : bytes)
  (t1 t2 : timeout_arg) (nc : Netcat) (chunks : list bytes)
  (Hin : incoming (sock nc) = map RData chunks)
  (Hne : Forall (fun x : bytes => x <> []) chunks)
  (Hdef : _timeout nc = None)
  (Ht1 : unlimited nc t1) (Ht2 : unlimited nc t2)
  (Hd : contains (buf nc ++ concat chunks) d = true)
  (Hfuel : (cost chunks < fuel)%nat) :
  exists r1 nc1 r2 nc2 pre post,
    recv_until clock fuel d t1 nc = (Ret r1, nc1) /\
    recv_all clock fuel t2 nc1 = (Ret r2, nc2) /\
    buf nc ++ concat chunks = pre ++ d ++ post /\
    (forall j, (j < length pre)%nat ->
               startswith (skipn j (buf nc ++ concat chunks)) d = false) /\
    r1 = pre ++ d /\
    r2 = post /\
    r1 ++ r2 = buf nc ++ concat chunks.
Proof.
  rewrite recv_until_unfold, (resolved_unlimited t1 nc Ht1).
  destruct nc as [b [dl inc del out wr] p pi t late rl sl tk].
  cbn in Hin, Hdef, Hd. subst inc t. unfold entering. fields.
  rewrite <- (app_nil_r (map RData chunks)).
  destruct (recv_until_loop_data clock None (clock tk) [] out wr p pi None sl d fuel
              chunks b dl del false rl (S tk))
    as [(got & chunks' & d' & rl' & tk' & Hrun & Hfound & Hsplit & Hle & Hall)
       |[(got & chunks' & d' & rl' & tk' & Hto & _)
        |(got & d' & rl' & tk' & fuel' & _ & Hnot & _)]];
    [lia | | congruence | congruence].
  rewrite Hrun. clear Hrun.
  set (b1 := b ++ concat got) in *.
  destruct (find b1 d) as [i|] eqn:Hfind;
    [|unfold contains in Hfound; rewrite Hfind in Hfound; discriminate].
  rewrite (recv_until_finish_found out wr p pi None sl I d b1 i) by exact Hfind.
  set (nc1 := mkNetcat (skipn (i + length d) b1) _ _ _ _ _ _ _ _).
  assert (Hun2 : unlimited nc1 t2) by (destruct t2; cbn in *; auto).
  assert (Hall2 : exists nc2,
             recv_all clock fuel t2 nc1 =
               (Ret (skipn (i + length d) b1 ++ concat chunks'), nc2)).
  { rewrite recv_all_unfold, (resolved_unlimited t2 nc1 Hun2).
    unfold nc1, entering. fields.
    destruct (recv_all_loop_data clock None (clock tk') [] out wr p pi None sl fuel
                chunks' (skipn (i + length d) b1) None (del ++ got) false
                (rl' ++ [firstn (i + length d) b1]) (S tk') (Hall Hne))
      as [(got2 & chunks2 & d2 & rl2 & tk2 & Hto & _)
         |(got2 & d2 & rl2 & tk2 & fuel' & Hfuel' & Hgot2 & Hrun2)];
      [lia | congruence |].
    rewrite Hrun2. clear Hrun2.
    destruct fuel' as [|fuel']; [lia|].
    destruct (recv_all_loop_closes clock None (clock tk') out wr p pi None sl fuel'
                (skipn (i + length d) b1 ++ concat chunks') d2 []
                ((del ++ got) ++ got2) false rl2 tk2)
      as [(tk3 & Hto & _)|(d3 & tk3 & Hrun3)]; [now left | congruence |].
    rewrite Hrun3.
    rewrite (recv_all_finish_run out wr p pi None sl I).
    eexists. reflexivity. }
  destruct Hall2 as [nc2 Hall2].
  destruct (find_occurrence b1 d i Hfind) as [Hocc Hmin].
  assert (Hstream : b ++ concat chunks = b1 ++ concat chunks').
  { unfold b1. now rewrite <- app_assoc, Hsplit. }
  pose proof (find_bound b1 d i Hfind) as Hbound.
  exists (firstn (i + length d) b1), nc1, (skipn (i + length d) b1 ++ concat chunks'),
    nc2, (firstn i b1), (skipn (i + length d) b1 ++ concat chunks').
  assert (Hpre : firstn (i + length d) b1 = firstn i b1 ++ d).
  { rewrite Hocc at 1. rewrite firstn_app, length_firstn.
    replace (Nat.min i (length b1)) with i by lia.
    replace (i + length d - i)%nat with (length d) by lia.
    rewrite firstn_app, Nat.sub_diag, firstn_all, firstn_O, app_nil_r.
    rewrite (firstn_all2 (n := i + length d)); [reflexivity|].
    rewrite length_firstn. lia. }
  split; [reflexivity|]. split; [exact Hall2|].
  fields. rewrite Hstream. repeat split.
  - rewrite Hocc at 1. now rewrite <- !app_assoc.
  - intros j Hj. rewrite length_firstn in Hj.
    rewrite skipn_app.
    apply startswith_app_false.
    + apply Hmin. lia.
    + rewrite length_skipn. lia.
  - exact Hpre.
  - now rewrite app_assoc, firstn_skipn.
Qed.

Lemma recv_until_then_recv_all_witness :
  exists r1 nc1 r2 nc2 pre post,
    recv_until steady 12 [x0a] Default
      (connected [] [RData ["p"; "i"]%byte; RData ["n"; "g"; x0a; "o"; "k"]%byte])
      = (Ret r1, nc1) /\
    recv_all steady 12 Default nc1 = (Ret r2, nc2) /\
    [] ++ concat [["p"; "i"]; ["n"; "g"; x0a; "o"; "k"]]%byte = pre ++ [x0a] ++ post /\
    (forall j, (j < length pre)%nat ->
               startswith
                 (skipn j ([] ++ concat [["p"; "i"]; ["n"; "g"; x0a; "o"; "k"]]%byte))
                 [x0a] = false) /\
    r1 = pre ++ [x0a] /\
    r2 = post /\
    r1 ++ r2 = [] ++ concat [["p"; "i"]; ["n"; "g"; x0a; "o"; "k"]]%byte.
Proof.
  apply (recv_until_then_recv_all steady 12 [x0a] Default Default
           (connected [] [RData ["p"; "i"]%byte; RData ["n"; "g"; x0a; "o"; "k"]%byte])
           [["p"; "i"]; ["n"; "g"; x0a; "o"; "k"]]%byte).
  - reflexivity.
  - repeat constructor; discriminate.
  - reflexivity.
  - reflexivity.
  - reflexivity.
  - reflexivity.
  - unfold cost. simpl. lia.
Defined.

(** ** Deadline expiry in [recv_until] *)

(** C4 fails as stated: [recv_until(b"\n", timeout=3)] with [b"a"]
    buffered, one more byte delivered and then a read that times out
    sets [timed_out] and returns both bytes; the residual buffer is
    empty afterwards, it does not hold what it held plus what was
    read. *)
Lemma recv_until_timeout_consumes :
  let nc := connected ["a"%byte] [RData ["p"%byte]; RTimeout] in
  exists nc',
    recv_until steady 5 [x0a] (Secs 3) nc = (Ret ["a"; "p"]%byte, nc') /\
    timed_out nc' = true /\
    delivered (sock nc') = delivered (sock nc) ++ [["p"%byte]] /\
    buf nc' = [] /\
    buf nc' <> buf nc ++ concat [["p"%byte]].
Proof.
  cbv zeta. eexists. split; [vm_compute; reflexivity|].
  cbn. repeat split. discriminate.
Qed.

(** C4, amended: when the deadline of [recv_until] expires before the
    delimiter appears (the clock passes the bound, or the read at
    which the peer stalls raises [socket.timeout]), the call sets
    [timed_out] and returns everything accumulated, the bytes the
    residual buffer held followed by every byte read during the call,
    and leaves the residual buffer empty. *)
Theorem recv_until_timeout_drains (clock : nat -> Z) (fuel : nat) (s : bytes)
  (timeout : timeout_arg) (nc : Netcat) (chunks : list bytes)
  (rest : list read_event)
  (Hin : incoming (sock nc) = map RData chunks ++ RTimeout :: rest)
  (Hdef : accepted_timeout (_timeout nc))
  (Hs : contains (buf nc ++ concat chunks) s = false)
  (Hfuel : (cost chunks < fuel)%nat) :
  exists got nc',
    recv_until clock fuel s timeout nc = (Ret (buf nc ++ concat got), nc') /\
    timed_out nc' = true /\
    delivered (sock nc') = delivered (sock nc) ++ got /\
    buf nc' = [].
Proof.
  rewrite recv_until_unfold.
  set (T := resolved timeout nc). clearbody T.
  destruct nc as [b [dl inc del out wr] p pi t late rl sl tk].
  cbn in Hin, Hdef, Hs. subst inc. unfold entering. fields.
  destruct (recv_until_loop_data clock T (clock tk) (RTimeout :: rest) out wr p pi t
              sl s fuel chunks b dl del false rl (S tk))
    as [(got & chunks' & d' & rl' & tk' & Hrun & Hfound & Hsplit & _)
       |[(got & chunks' & d' & rl' & tk' & Hto & Hrun & Hnot & Hsplit)
        |(got & d' & rl' & tk' & fuel' & Hfuel' & Hnot & Hgot & Hrun)]];
    [lia | | |].
  - apply (contains_app _ (concat chunks')) in Hfound.
    rewrite <- app_assoc, Hsplit in Hfound. congruence.
  - rewrite Hrun, (recv_until_finish_late out wr p pi t sl Hdef).
    exists got. eexists. split; [reflexivity|]. fields. auto.
  - rewrite Hrun. destruct fuel' as [|fuel']; [lia|].
    destruct (recv_until_loop_stalls clock T (clock tk) out wr p pi t sl s fuel'
                (b ++ concat chunks) d' rest (del ++ got) false rl' tk' Hnot)
      as [(tk2 & _ & Hrun2)|(d2 & tk2 & Hrun2)]; rewrite Hrun2.
    + rewrite (recv_until_finish_late out wr p pi t sl Hdef).
      exists got. eexists. rewrite Hgot. split; [reflexivity|]. fields. auto.
    + fields. rewrite (recv_until_finish_late out wr p pi t sl Hdef).
      exists got. eexists. rewrite Hgot. split; [reflexivity|]. fields. auto.
Qed.

Lemma recv_until_timeout_drains_witness :
  exists got nc',
    recv_until steady 5 [x0a] (Secs 3) (connected ["a"%byte] [RData ["p"%byte]; RTimeout])
      = (Ret (["a"%byte] ++ concat got), nc') /\
    timed_out nc' = true /\
    delivered (sock nc') = [] ++ got /\
    buf nc' = [].
Proof.
  apply (recv_until_timeout_drains steady 5 [x0a] (Secs 3)
           (connected ["a"%byte] [RData ["p"%byte]; RTimeout]) [["p"%byte]] []).
  - reflexivity.
  - exact I.
  - reflexivity.
  - unfold cost. simpl. lia.
Defined.

(** ** [recv_exactly] against a stalled peer *)

Lemma slice_short (b : bytes) (n : Z) :
  len b < n -> slice_to b n = b /\ slice_from b n = [].
Proof.
  intros H. pose proof (len_nonneg b).
  rewrite slice_to_nonneg, slice_from_nonneg by lia.
  unfold len in *. split; [apply firstn_all2 | apply skipn_all2]; lia.
Qed.



(** ** A zero-length read in [recv_all] and in [recv_exactly] *)




(** ** [send] *)

Lemma send_loop_all (fuel : nat) :
  forall (s : bytes) script wrt b d inc del p pi t late rl sl tk,
    Forall accepts script ->
    (pi = false -> p <> None) ->
    (length script < fuel)%nat ->
    exists calls script',
      send_loop fuel s
        (mkNetcat b (mkSocket d inc del script wrt) p pi t late rl sl tk) =
      (Ret tt, mkNetcat b (mkSocket d inc del script' (wrt ++ calls)) p pi t late rl sl tk)
      /\ advances s calls
      /\ concat (map transmitted calls) = s
      /\ Forall (fun c => w_target c = if pi then None else p) calls.
Proof.
  induction fuel as [|fuel IH]; intros s script wrt b d inc del p pi t late rl sl tk
                                       Hacc Hp Hfuel; [lia|].
  destruct s as [|x s].
  { exists [], script. rewrite app_nil_r. cbn. auto. }
  set (data := x :: s).
  assert (Hstep : forall target k script',
             (k <= length data)%nat ->
             Forall accepts script' -> (length script' <= length script)%nat ->
             (length script' < length script \/ skipn k data = [])%nat ->
             target = (if pi then None else p) ->
             exists calls script'',
               send_loop fuel (skipn k data)
                 (mkNetcat b (mkSocket d inc del script'
                                (wrt ++ [mkWrite target data k]))
                    p pi t late rl sl tk) =
               (Ret tt, mkNetcat b (mkSocket d inc del script'' (wrt ++ calls))
                          p pi t late rl sl tk)
               /\ advances data calls
               /\ concat (map transmitted calls) = data
               /\ Forall (fun c => w_target c = if pi then None else p) calls).
  { intros target k script' Hk Hacc' Hlen Hprog Htarget.
    assert (Hrec : exists calls script'',
               send_loop fuel (skipn k data)
                 (mkNetcat b (mkSocket d inc del script'
                                (wrt ++ [mkWrite target data k]))
                    p pi t late rl sl tk) =
               (Ret tt, mkNetcat b (mkSocket d inc del script''
                                      ((wrt ++ [mkWrite target data k]) ++ calls))
                          p pi t late rl sl tk)
               /\ advances (skipn k data) calls
               /\ concat (map transmitted calls) = skipn k data
               /\ Forall (fun c => w_target c = if pi then None else p) calls).
    { destruct Hprog as [Hlt|Hnil].
      - apply IH; [exact Hacc' | exact Hp | lia].
      - rewrite Hnil. exists [], script'. rewrite app_nil_r.
        destruct fuel; cbn; auto. }
    destruct Hrec as (calls & script'' & Hrun & Hadv & Hcat & Htgt).
    exists (mkWrite target data k :: calls), script''.
    rewrite Hrun, <- app_assoc. split; [reflexivity|]. split; [|split].
    - cbn [advances w_data w_accepted]. repeat split; auto. discriminate.
    - cbn [map concat]. unfold transmitted at 1. cbn [w_data w_accepted].
      rewrite Hcat. apply firstn_skipn.
    - constructor; [exact Htarget | exact Htgt]. }
  cbn [send_loop nonempty negb]. fold data.
  unfold bind at 1. unfold get at 1. fields.
  destruct pi.
  - unfold bind at 1. unfold on_sock, sock_send, sock_write. fields.
    destruct script as [|[k|] script'].
    + apply Hstep;
        [apply Nat.le_refl | constructor | apply Nat.le_refl
        | right; apply skipn_all | reflexivity].
    + apply Hstep;
        [apply Nat.le_min_r | exact (Forall_inv_tail Hacc) | cbn; lia
        | left; cbn; lia | reflexivity].
    + exfalso. exact (Forall_inv Hacc).
  - destruct p as [a|]; [|now specialize (Hp eq_refl)].
    unfold bind at 1. unfold bind at 1. unfold get at 1. fields.
    unfold on_sock, sock_sendto, sock_write. fields.
    destruct script as [|[k|] script'].
    + apply Hstep;
        [apply Nat.le_refl | constructor | apply Nat.le_refl
        | right; apply skipn_all | reflexivity].
    + apply Hstep;
        [apply Nat.le_min_r | exact (Forall_inv_tail Hacc) | cbn; lia
        | left; cbn; lia | reflexivity].
    + exfalso. exact (Forall_inv Hacc).
Qed.

(** Binding a datagram socket learns the peer from the first
    datagram, which is kept in the residual buffer. *)
Lemma init_learns_peer (env : Env) (listen : addr) :
  exists nc,
    __init__ env None None (Some listen) true = Ret nc /\
    peer nc = Some (learned_peer env) /\
    peer_implicit nc = false /\
    buf nc = firstn 1024 (fst (first_datagram env)).
Proof.
  unfold __init__, learned_peer. cbn. destruct (first_datagram env) as [dg a].
  eexists. split; [reflexivity|]. cbn. auto.
Qed.

(** C9: [send(data)] keeps writing until all of [data] is out: each
    raw write offers what the writes before did not accept, and what
    the writes accepted adds up to [data]; the writes go to the
    connected peer when [peer_implicit] is true and to [self.peer]
    otherwise, which for an object built by binding a datagram socket
    is the address learned from the first datagram. *)
Theorem send_writes_until_done (fuel : nat) (data : bytes) (nc : Netcat)
  (Hacc : Forall accepts (outgoing (sock nc)))
  (Hpeer : peer_implicit nc = false -> peer nc <> None)
  (Hfuel : (length (outgoing (sock nc)) < fuel)%nat) :
  exists nc' calls,
    send fuel data nc = (Ret tt, nc') /\
    written (sock nc') = written (sock nc) ++ calls /\
    advances data calls /\
    concat (map transmitted calls) = data /\
    Forall (fun c => w_target c = if peer_implicit nc then None else peer nc) calls /\
    (forall env listen nc0,
        __init__ env None None (Some listen) true = Ret nc0 ->
        peer nc = peer nc0 -> peer_implicit nc = peer_implicit nc0 ->
        Forall (fun c => w_target c = Some (learned_peer env)) calls).
Proof.
  destruct nc as [b [d inc del out wr] p pi t late rl sl tk].
  cbn in Hacc, Hpeer, Hfuel.
  destruct (send_loop_all fuel data out wr b d inc del p pi t late rl (sl ++ [data]) tk
              Hacc Hpeer Hfuel)
    as (calls & script' & Hrun & Hadv & Hcat & Htgt).
  eexists. exists calls. unfold send, bind, _log_send. fields.
  rewrite Hrun. split; [reflexivity|]. fields. repeat split; auto.
  intros env listen nc0 Hinit Hp Hpi.
  destruct (init_learns_peer env listen) as (nc1 & Hinit1 & Hp1 & Hpi1 & _).
  rewrite Hinit in Hinit1. injection Hinit1 as <-.
  rewrite Hp1 in Hp. rewrite Hpi1 in Hpi. subst p pi. exact Htgt.
Qed.

Lemma send_writes_until_done_witness :
  __init__ udp_env None None (Some ("0.0.0.0", 4444)) true = Ret udp_listener /\
  exists nc' calls,
    send 5 ping_nl udp_listener = (Ret tt, nc') /\
    written (sock nc') = written (sock udp_listener) ++ calls /\
    advances ping_nl calls /\
    concat (map transmitted calls) = ping_nl /\
    Forall (fun c => w_target c =
                       if peer_implicit udp_listener then None else peer udp_listener)
           calls /\
    (forall env listen nc0,
        __init__ env None None (Some listen) true = Ret nc0 ->
        peer udp_listener = peer nc0 ->
        peer_implicit udp_listener = peer_implicit nc0 ->
        Forall (fun c => w_target c = Some (learned_peer env)) calls).
Proof.
  split; [reflexivity|].
  apply (send_writes_until_done 5 ping_nl udp_listener).
  - repeat constructor.
  - intros _. discriminate.
  - cbn. lia.
Defined.

(** ** What the raw operations can raise and what they keep *)

Lemma sock_recv_raises (k : Z) (s : Socket) (e : exn) (s' : Socket) :
  sock_recv k s = (Raise e, s') ->
  e = ValueError \/ e = socket_timeout \/ e = socket_error \/ e = KeyboardInterrupt.
Proof.
  unfold sock_recv. destruct (k <? 0); [intros [= <- _]; auto|].
  destruct (incoming s) as [|[c| | |] rest]; intros [= <- _]; auto.
Qed.

Lemma sock_settimeout_raises (t : option Z) (s : Socket) (e : exn) (s' : Socket) :
  sock_settimeout t s = (Raise e, s') -> e = ValueError.
Proof.
  unfold sock_settimeout. destruct t as [z|]; [|discriminate].
  destruct (z <? 0); [now intros [= <- _] | discriminate].
Qed.

Lemma sock_settimeout_sets (t : option Z) (s s' : Socket) :
  sock_settimeout t s = (Ret tt, s') -> deadline s' = t.
Proof.
  unfold sock_settimeout. destruct t as [z|].
  - destruct (z <? 0); [discriminate | now intros [= <-]].
  - now intros [= <-].
Qed.

Lemma on_sock_keeps {A : Type} (op : Socket -> Res A * Socket) (nc : Netcat) :
  _timeout (snd (on_sock op nc)) = _timeout nc /\
  recv_log (snd (on_sock op nc)) = recv_log nc /\
  buf (snd (on_sock op nc)) = buf nc.
Proof. unfold on_sock. destruct (op (sock nc)). cbn. auto. Qed.

Section Keeping.

Variable clock : nat -> Z.

Lemma check_deadline_keeps timeout start nc :
  _timeout (snd (check_deadline clock timeout start nc)) = _timeout nc /\
  recv_log (snd (check_deadline clock timeout start nc)) = recv_log nc /\
  buf (snd (check_deadline clock timeout start nc)) = buf nc.
Proof.
  destruct timeout as [T|]; cbn; [|auto].
  unfold bind, time_time. cbn.
  destruct (clock (ticks nc) - start >? T); cbn; [auto|].
  unfold on_sock. cbn.
  destruct (T - (clock (ticks nc) - start) <? 0); cbn; auto.
Qed.

Lemma check_deadline_raises timeout start nc e nc' :
  check_deadline clock timeout start nc = (Raise e, nc') -> e = ValueError.
Proof.
  destruct timeout as [T|]; cbn; [|discriminate].
  unfold bind, time_time. cbn.
  destruct (clock (ticks nc) - start >? T); cbn; [discriminate|].
  unfold on_sock. cbn.
  destruct (T - (clock (ticks nc) - start) <? 0); cbn; [|discriminate].
  now intros [= <- _].
Qed.

(** The [raise] inside the loop of [recv_until] is never reached. *)
Lemma recv_until_loop_never_drops s timeout start fuel :
  forall nc msg,
    fst (recv_until_loop clock fuel s timeout start nc) <> Raise (NetcatError msg).
Proof.
  induction fuel as [|fuel IH]; intros nc msg;
    destruct (contains (buf nc) s) eqn:Hb;
    try (rewrite recv_until_loop_done by exact Hb; discriminate).
  - cbn. unfold bind, get. cbn. rewrite Hb. discriminate.
  - rewrite recv_until_loop_step by exact Hb.
    destruct (check_deadline clock timeout start nc) as [[[|]|e|] nc1] eqn:Hck;
      try discriminate.
    + destruct (on_sock (sock_recv 4096) nc1) as [[a|e|] nc2] eqn:Hrd;
        [apply IH | | discriminate].
      unfold on_sock in Hrd.
      destruct (sock_recv 4096 (sock nc1)) as [r s'] eqn:Hs.
      injection Hrd as -> _.
      destruct (sock_recv_raises _ _ _ _ Hs) as [->|[->|[->| ->]]]; discriminate.
    + rewrite (check_deadline_raises _ _ _ _ _ Hck). discriminate.
Qed.

Lemma recv_until_loop_keeps_timeout s timeout start fuel :
  forall nc,
    _timeout (snd (recv_until_loop clock fuel s timeout start nc)) = _timeout nc.
Proof.
  induction fuel as [|fuel IH]; intros nc;
    destruct (contains (buf nc) s) eqn:Hb;
    try (rewrite recv_until_loop_done by exact Hb; reflexivity).
  - cbn. unfold bind, get. cbn. now rewrite Hb.
  - rewrite recv_until_loop_step by exact Hb.
    destruct (check_deadline_keeps timeout start nc) as [Hk _].
    destruct (check_deadline clock timeout start nc) as [[[|]|e|] nc1];
      cbn in Hk |- *; try exact Hk.
    destruct (on_sock_keeps (sock_recv 4096) nc1) as [Hk2 _].
    destruct (on_sock (sock_recv 4096) nc1) as [[a|e|] nc2];
      cbn in Hk2 |- *; try congruence.
    rewrite IH. cbn. congruence.
Qed.

Lemma recv_all_loop_keeps_timeout timeout start fuel :
  forall nc,
    _timeout (snd (recv_all_loop clock fuel timeout start nc)) = _timeout nc.
Proof.
  induction fuel as [|fuel IH]; intros nc; [reflexivity|].
  rewrite recv_all_loop_step.
  destruct (check_deadline_keeps timeout start nc) as [Hk _].
  destruct (check_deadline clock timeout start nc) as [[[|]|e|] nc1];
    cbn in Hk |- *; try exact Hk.
  destruct (on_sock_keeps (sock_recv 4096) nc1) as [Hk2 _].
  destruct (on_sock (sock_recv 4096) nc1) as [[a|e|] nc2];
    cbn in Hk2 |- *; try congruence.
  destruct (nonempty a); [|cbn; congruence].
  rewrite IH. cbn. congruence.
Qed.

Lemma recv_exactly_loop_keeps n timeout start fuel :
  forall nc,
    _timeout (snd (recv_exactly_loop clock fuel n timeout start nc)) = _timeout nc /\
    recv_log (snd (recv_exactly_loop clock fuel n timeout start nc)) = recv_log nc.
Proof.
  induction fuel as [|fuel IH]; intros nc;
    destruct (Z.ltb_spec (len (buf nc)) n) as [Hlt|Hge];
    try (rewrite recv_exactly_loop_done by exact Hge; split; reflexivity).
  - cbn. unfold bind, get. cbn.
    destruct (Z.ltb_spec (len (buf nc)) n); [|lia]. cbn. auto.
  - rewrite recv_exactly_loop_step by exact Hlt.
    destruct (check_deadline_keeps timeout start nc) as (Hk & Hl & _).
    destruct (check_deadline clock timeout start nc) as [[[|]|e|] nc1];
      cbn in Hk, Hl |- *; auto.
    destruct (on_sock_keeps (sock_recv (n - len (buf nc1))) nc1) as (Hk2 & Hl2 & _).
    destruct (on_sock (sock_recv (n - len (buf nc1))) nc1) as [[a|e|] nc2];
      cbn in Hk2, Hl2 |- *; try (split; congruence).
    destruct (len a =? 0); [cbn; split; congruence|].
    destruct (IH (with_buf (buf nc2 ++ a) nc2)) as [H1 H2].
    rewrite H1, H2. cbn. split; congruence.
Qed.

End Keeping.

(** ** What the sibling methods do *)

Section Siblings.

Variable clock : nat -> Z.

Lemma recv_until_finish_restores s nc r nc' :
  recv_until_finish s nc = (Ret r, nc') ->
  deadline (sock nc') = _timeout nc /\ _timeout nc' = _timeout nc.
Proof.
  unfold recv_until_finish, bind, get, on_sock, _head_buf. cbn.
  destruct (sock_settimeout (_timeout nc) (sock nc)) as [[[]|e|] s'] eqn:E;
    cbn; try discriminate.
  apply sock_settimeout_sets in E.
  destruct (timed_out nc); cbn.
  - intros [= _ <-]. cbn. auto.
  - destruct (find (buf nc) s); cbn; [|discriminate].
    intros [= _ <-]. cbn. auto.
Qed.

Lemma recv_until_finish_never_drops s nc msg :
  fst (recv_until_finish s nc) <> Raise (NetcatError msg).
Proof.
  unfold recv_until_finish, bind, get, on_sock, _head_buf. cbn.
  destruct (sock_settimeout (_timeout nc) (sock nc)) as [[[]|e|] s'] eqn:E; cbn.
  - destruct (timed_out nc); cbn; [discriminate|].
    destruct (find (buf nc) s); cbn; discriminate.
  - rewrite (sock_settimeout_raises _ _ _ _ E). discriminate.
  - discriminate.
Qed.

(** Whenever [recv_until] returns, the socket has the default
    deadline again. *)
Lemma recv_until_restores_default fuel s timeout nc r nc' :
  recv_until clock fuel s timeout nc = (Ret r, nc') ->
  deadline (sock nc') = _timeout nc' /\ _timeout nc' = _timeout nc.
Proof.
  rewrite recv_until_unfold.
  pose proof (recv_until_loop_keeps_timeout clock s (resolved timeout nc)
                (clock (ticks nc)) fuel (entering nc)) as Hk.
  destruct (recv_until_loop clock fuel s (resolved timeout nc) (clock (ticks nc))
              (entering nc)) as [[[]|e|] nc1]; cbn in Hk; try discriminate.
  - intros H. apply recv_until_finish_restores in H. cbn in Hk. intuition congruence.
  - destruct e; try discriminate.
    intros H. apply recv_until_finish_restores in H. cbn in H, Hk. intuition congruence.
Qed.

(** [recv_until] never raises [NetcatError]: its "Connection
    dropped!" is unreachable. *)
Lemma recv_until_never_drops fuel s timeout nc msg :
  fst (recv_until clock fuel s timeout nc) <> Raise (NetcatError msg).
Proof.
  rewrite recv_until_unfold.
  pose proof (recv_until_loop_never_drops clock s (resolved timeout nc)
                (clock (ticks nc)) fuel (entering nc)) as Hn.
  destruct (recv_until_loop clock fuel s (resolved timeout nc) (clock (ticks nc))
              (entering nc)) as [[[]|e|] nc1]; cbn in Hn.
  - apply recv_until_finish_never_drops.
  - destruct e; try discriminate.
    + exfalso. exact (Hn msg0 eq_refl).
    + apply recv_until_finish_never_drops.
  - discriminate.
Qed.

Lemma recv_all_finish_restores nc r nc' :
  recv_all_finish nc = (Ret r, nc') ->
  deadline (sock nc') = _timeout nc /\ _timeout nc' = _timeout nc.
Proof.
  unfold recv_all_finish, bind, get, on_sock. cbn.
  destruct (sock_settimeout (_timeout nc) (sock nc)) as [[[]|e|] s'] eqn:E;
    cbn; try discriminate.
  apply sock_settimeout_sets in E. intros [= _ <-]. cbn. auto.
Qed.

(** Whenever [recv_all] returns, the socket has the default deadline
    again. *)
Lemma recv_all_restores_default fuel timeout nc r nc' :
  recv_all clock fuel timeout nc = (Ret r, nc') ->
  deadline (sock nc') = _timeout nc' /\ _timeout nc' = _timeout nc.
Proof.
  rewrite recv_all_unfold.
  pose proof (recv_all_loop_keeps_timeout clock (resolved timeout nc)
                (clock (ticks nc)) fuel (entering nc)) as Hk.
  destruct (recv_all_loop clock fuel (resolved timeout nc) (clock (ticks nc))
              (entering nc)) as [[[]|e|] nc1]; cbn in Hk; try discriminate.
  - intros H. apply recv_all_finish_restores in H. intuition congruence.
  - destruct e; try discriminate;
      intros H; apply recv_all_finish_restores in H; cbn in H; intuition congruence.
Qed.

(** [recv_exactly] reports what it returns, once. *)
Lemma recv_exactly_logs_result fuel n timeout nc r nc' :
  recv_exactly clock fuel n timeout nc = (Ret r, nc') ->
  recv_log nc' = recv_log nc ++ [r].
Proof.
  rewrite recv_exactly_unfold.
  destruct (recv_exactly_loop_keeps clock n (resolved timeout nc)
              (clock (ticks nc)) fuel (entering nc)) as [_ Hl].
  destruct (recv_exactly_loop clock fuel n (resolved timeout nc) (clock (ticks nc))
              (entering nc)) as [[[]|e|] nc1]; cbn in Hl; try discriminate.
  - unfold recv_exactly_finish, bind, get, set_buf, _log_recv, ret. cbn.
    intros [= <- <-]. cbn. now rewrite Hl.
  - destruct e; try discriminate;
      unfold recv_exactly_finish, bind, get, set_buf, _log_recv, ret; cbn;
      intros [= <- <-]; cbn; now rewrite Hl.
Qed.

End Siblings.

(** When [recv] returns after a raw read, the socket has the default
    deadline again; however it returns, it has reported what it
    returns, once. *)
Lemma recv_returns_restored (n : Z) (timeout : timeout_arg) (nc : Netcat) r nc' :
  recv n timeout nc = (Ret r, nc') ->
  recv_log nc' = recv_log nc ++ [r] /\
  (buf nc = [] -> deadline (sock nc') = _timeout nc').
Proof.
  destruct nc as [b [d inc del out wr] p pi t late rl sl tk].
  unfold recv, bind, set_timed_out, get, try_except, _log_recv, set_buf, ret,
    on_sock, sock_recv, sock_settimeout.
  cbn. rewrite ?andb_false_r.
  destruct b as [|x b]; cbn.
  - destruct timeout as [| |T], inc as [|[c| | |] rest], t as [z|];
      cbn; rewrite ?Z.sub_0_r; split_tests;
      try discriminate; intros [= <- <-]; cbn; auto.
  - intros [= <- <-]. cbn. split; [reflexivity | discriminate].
Qed.

(** [recv] never raises "Connection dropped!". *)
Lemma recv_never_drops (n : Z) (timeout : timeout_arg) (nc : Netcat) :
  fst (recv n timeout nc) <> Raise (NetcatError "Connection dropped!").
Proof.
  destruct nc as [b [d inc del out wr] p pi t late rl sl tk].
  unfold recv, bind, set_timed_out, get, try_except, _log_recv, set_buf, ret,
    on_sock, sock_recv, sock_settimeout.
  cbn. rewrite ?andb_false_r.
  destruct b as [|x b]; cbn; [|discriminate].
  destruct timeout as [| |T], inc as [|[c| | |] rest], t as [z|];
    cbn; rewrite ?Z.sub_0_r; split_tests; discriminate.
Qed.

(** ** Where the code departs from the specification *)

(** C2: [recv_exactly] never puts the default deadline back.  With
    the default [None], [recv_exactly(1, timeout=5)] returns its byte
    and leaves the socket with the remainder of the call's deadline;
    and when a raw read of [recv] fails, the [raise] leaves before the
    restore, so the socket keeps the call's deadline too. *)
Theorem recv_exactly_leaves_call_deadline :
  (exists nc',
      recv_exactly steady 5 1 (Secs 5) (connected [] [RData ["a"%byte]]) =
        (Ret ["a"%byte], nc') /\
      _timeout nc' = None /\
      deadline (sock nc') = Some 4) /\
  (exists nc',
      recv 16 (Secs 5) (connected [] [RError]) =
        (Raise (NetcatError "Socket error!"), nc') /\
      _timeout nc' = None /\
      deadline (sock nc') = Some 5).
Proof.
  split; eexists; (split; [vm_compute; reflexivity|]); split; reflexivity.
Qed.

(** [recv_until] never gets past a closed peer when it has no
    deadline: every zero-length read is appended and the loop goes
    on. *)
Lemma recv_until_loop_spins (clock : nat -> Z) (s : bytes) (start : Z) (fuel : nat) :
  forall (b : bytes) d del out wr p pi t late rl sl tk,
    contains b s = false ->
    exists nc',
      recv_until_loop clock fuel s None start
        (mkNetcat b (mkSocket d [] del out wr) p pi t late rl sl tk) = (Fuel, nc').
Proof.
  induction fuel as [|fuel IH]; intros b d del out wr p pi t late rl sl tk Hb.
  - cbn. unfold bind, get. fields. rewrite Hb. eexists. reflexivity.
  - rewrite recv_until_loop_step by exact Hb.
    rewrite check_deadline_unlimited. unfold on_sock. fields.
    rewrite sock_recv_closes by (lia || now left). fields.
    apply IH. now rewrite app_nil_r.
Qed.

(** C3: the comparisons [ret == ''] and [a == ''] set a bytes object
    against a str and are never true, so a closed peer is not
    reported: [recv] never raises "Connection dropped!" and
    [recv_until] never raises [NetcatError]; at a closed peer
    [recv(4096, timeout=None)] returns [b''], and
    [recv_until(b"\n", timeout=None)] neither raises nor returns,
    whatever the step budget. *)
Theorem peer_close_not_raised :
  (forall n timeout nc,
      fst (recv n timeout nc) <> Raise (NetcatError "Connection dropped!")) /\
  (forall clock fuel s timeout nc msg,
      fst (recv_until clock fuel s timeout nc) <> Raise (NetcatError msg)) /\
  (exists nc', recv 4096 NoTimeout (connected [] []) = (Ret [], nc')) /\
  (forall fuel,
      fst (recv_until steady fuel [x0a] NoTimeout (connected [] [])) = Fuel).
Proof.
  split; [exact recv_never_drops|].
  split; [exact recv_until_never_drops|].
  split.
  - eexists. vm_compute. reflexivity.
  - intros fuel. rewrite recv_until_unfold. unfold entering, connected, new_netcat,
      idle_socket. fields. cbn [resolved].
    destruct (recv_until_loop_spins steady [x0a] (steady 0) fuel [] None [] [] []
                None true None false [] [] 1%nat eq_refl) as [nc' Hrun].
    rewrite Hrun. reflexivity.
Qed.

(** C6: [recv_until] reports each chunk as it is read and then the
    result again, and [recv_all] reports the chunks it reads but not
    the bytes that were buffered before the call nor the result. *)
Theorem recv_log_not_once :
  (exists nc',
      recv_until steady 5 [x0a] NoTimeout (connected [] [RData ping_nl]) =
        (Ret ping_nl, nc') /\
      recv_log nc' = [ping_nl; ping_nl]) /\
  (exists nc',
      recv_all steady 5 NoTimeout (connected ["a"%byte] [RData ping_nl]) =
        (Ret ("a"%byte :: ping_nl), nc') /\
      recv_log nc' = [ping_nl]).
Proof.
  split; eexists; (split; [vm_compute; reflexivity|]); reflexivity.
Qed.

(** * Further properties of the receive family *)

(** ** No byte is lost, duplicated or reordered *)

Lemma slice_partition (b : bytes) (i : Z) : slice_to b i ++ slice_from b i = b.
Proof. unfold slice_to, slice_from. apply firstn_skipn. Qed.

Lemma sock_recv_delivers (k : Z) (s : Socket) :
  delivered (snd (sock_recv k s)) =
    delivered s ++ match fst (sock_recv k s) with Ret a => [a] | _ => [] end.
Proof.
  unfold sock_recv. destruct (k <? 0); cbn; [now rewrite app_nil_r|].
  destruct (incoming s) as [|[c| | |] rest]; cbn; now rewrite ?app_nil_r.
Qed.

Lemma on_sock_recv_delivers (k : Z) (nc : Netcat) :
  delivered (sock (snd (on_sock (sock_recv k) nc))) =
    delivered (sock nc)
      ++ match fst (on_sock (sock_recv k) nc) with Ret a => [a] | _ => [] end.
Proof.
  unfold on_sock. pose proof (sock_recv_delivers k (sock nc)) as H.
  destruct (sock_recv k (sock nc)) as [r s']. exact H.
Qed.

Section Conservation.

Variable clock : nat -> Z.

Lemma check_deadline_keeps_reads timeout start nc :
  delivered (sock (snd (check_deadline clock timeout start nc))) = delivered (sock nc).
Proof.
  destruct timeout as [T|]; cbn; [|reflexivity].
  unfold bind, time_time. cbn.
  destruct (clock (ticks nc) - start >? T); cbn; [reflexivity|].
  unfold on_sock. cbn.
  destruct (T - (clock (ticks nc) - start) <? 0); reflexivity.
Qed.


Lemma recv_until_loop_conserves s timeout start fuel :
  forall nc,
    exists got,
      delivered (sock (snd (recv_until_loop clock fuel s timeout start nc))) =
        delivered (sock nc) ++ got /\
      buf (snd (recv_until_loop clock fuel s timeout start nc)) =
        buf nc ++ concat got.
Proof.
  induction fuel as [|fuel IH]; intros nc;
    destruct (contains (buf nc) s) eqn:Hb;
    try (rewrite recv_until_loop_done by exact Hb; exists []; cbn;
         now rewrite !app_nil_r).
  - exists []. cbn. unfold bind, get. cbn. rewrite Hb. cbn. now rewrite !app_nil_r.
  - rewrite recv_until_loop_step by exact Hb.
    pose proof (check_deadline_keeps_reads timeout start nc) as Hd.
    destruct (check_deadline_keeps clock timeout start nc) as (_ & _ & Hbuf).
    destruct (check_deadline clock timeout start nc) as [[[|]|e|] nc1];
      cbn in Hd, Hbuf |- *;
      try (exists []; cbn; rewrite !app_nil_r; split; congruence).
    pose proof (on_sock_recv_delivers 4096 nc1) as Hd2.
    destruct (on_sock_keeps (sock_recv 4096) nc1) as (_ & _ & Hbuf2).
    destruct (on_sock (sock_recv 4096) nc1) as [[a|e|] nc2];
      cbn in Hd2, Hbuf2 |- *;
      try (exists []; cbn; rewrite !app_nil_r in *; split; congruence).
    destruct (IH (with_buf (buf nc2 ++ a) (with_recv_log (recv_log nc2 ++ [a]) nc2)))
      as (got & Hg1 & Hg2).
    exists (a :: got). rewrite Hg1, Hg2. cbn.
    rewrite Hd2, Hd, Hbuf2, Hbuf, <- !app_assoc. split; reflexivity.
Qed.

Lemma recv_all_loop_conserves timeout start fuel :
  forall nc,
    exists got,
      delivered (sock (snd (recv_all_loop clock fuel timeout start nc))) =
        delivered (sock nc) ++ got /\
      buf (snd (recv_all_loop clock fuel timeout start nc)) =
        buf nc ++ concat got.
Proof.
  induction fuel as [|fuel IH]; intros nc.
  - exists []. cbn. now rewrite !app_nil_r.
  - rewrite recv_all_loop_step.
    pose proof (check_deadline_keeps_reads timeout start nc) as Hd.
    destruct (check_deadline_keeps clock timeout start nc) as (_ & _ & Hbuf).
    destruct (check_deadline clock timeout start nc) as [[[|]|e|] nc1];
      cbn in Hd, Hbuf |- *;
      try (exists []; cbn; rewrite !app_nil_r; split; congruence).
    pose proof (on_sock_recv_delivers 4096 nc1) as Hd2.
    destruct (on_sock_keeps (sock_recv 4096) nc1) as (_ & _ & Hbuf2).
    destruct (on_sock (sock_recv 4096) nc1) as [[a|e|] nc2];
      cbn in Hd2, Hbuf2 |- *;
      try (exists []; cbn; rewrite !app_nil_r in *; split; congruence).
    destruct (nonempty a) eqn:Ha.
    + destruct (IH (with_recv_log (recv_log nc2 ++ [a]) (with_buf (buf nc2 ++ a) nc2)))
        as (got & Hg1 & Hg2).
      exists (a :: got). rewrite Hg1, Hg2. cbn.
      rewrite Hd2, Hd, Hbuf2, Hbuf, <- !app_assoc. split; reflexivity.
    + apply nonempty_false in Ha. subst a.
      exists [[]]. cbn. rewrite Hd2, Hd, Hbuf2, Hbuf, !app_nil_r. split; reflexivity.
Qed.

Lemma recv_exactly_loop_conserves n timeout start fuel :
  forall nc,
    exists got,
      delivered (sock (snd (recv_exactly_loop clock fuel n timeout start nc))) =
        delivered (sock nc) ++ got /\
      buf (snd (recv_exactly_loop clock fuel n timeout start nc)) =
        buf nc ++ concat got.
Proof.
  induction fuel as [|fuel IH]; intros nc;
    destruct (Z.ltb_spec (len (buf nc)) n) as [Hlt|Hge];
    try (rewrite recv_exactly_loop_done by exact Hge; exists []; cbn;
         now rewrite !app_nil_r).
  - exists []. cbn. unfold bind, get. cbn.
    destruct (Z.ltb_spec (len (buf nc)) n); [|lia]. cbn. now rewrite !app_nil_r.
  - rewrite recv_exactly_loop_step by exact Hlt.
    pose proof (check_deadline_keeps_reads timeout start nc) as Hd.
    destruct (check_deadline_keeps clock timeout start nc) as (_ & _ & Hbuf).
    destruct (check_deadline clock timeout start nc) as [[[|]|e|] nc1];
      cbn in Hd, Hbuf |- *;
      try (exists []; cbn; rewrite !app_nil_r; split; congruence).
    pose proof (on_sock_recv_delivers (n - len (buf nc1)) nc1) as Hd2.
    destruct (on_sock_keeps (sock_recv (n - len (buf nc1))) nc1) as (_ & _ & Hbuf2).
    destruct (on_sock (sock_recv (n - len (buf nc1))) nc1) as [[a|e|] nc2];
      cbn in Hd2, Hbuf2 |- *;
      try (exists []; cbn; rewrite !app_nil_r in *; split; congruence).
    destruct (Z.eqb_spec (len a) 0) as [Ha|Ha].
    + assert (a = []) by (destruct a; [reflexivity | unfold len in Ha; simpl in Ha; lia]).
      subst a. exists [[]]. cbn. rewrite Hd2, Hd, Hbuf2, Hbuf, !app_nil_r.
      split; reflexivity.
    + destruct (IH (with_buf (buf nc2 ++ a) nc2)) as (got & Hg1 & Hg2).
      exists (a :: got). rewrite Hg1, Hg2. cbn.
      rewrite Hd2, Hd, Hbuf2, Hbuf, <- !app_assoc. split; reflexivity.
Qed.

(** What follows the loops hands out a part of the buffer and keeps
    the rest, whatever happens. *)
Lemma recv_until_finish_conserves s nc :
  delivered (sock (snd (recv_until_finish s nc))) = delivered (sock nc) /\
  payload (fst (recv_until_finish s nc)) ++ buf (snd (recv_until_finish s nc)) = buf nc.
Proof.
  unfold recv_until_finish, bind, get, on_sock, _head_buf, sock_settimeout. cbn.
  destruct (_timeout nc) as [z|]; [destruct (z <? 0)|]; cbn; auto;
    (destruct (timed_out nc); cbn;
     [split; [reflexivity | apply slice_partition]
     |destruct (find (buf nc) s); cbn;
      [split; [reflexivity | apply slice_partition] | auto]]).
Qed.

Lemma recv_all_finish_conserves nc :
  delivered (sock (snd (recv_all_finish nc))) = delivered (sock nc) /\
  payload (fst (recv_all_finish nc)) ++ buf (snd (recv_all_finish nc)) = buf nc.
Proof.
  unfold recv_all_finish, bind, get, on_sock, sock_settimeout. cbn.
  destruct (_timeout nc) as [z|]; [destruct (z <? 0)|]; cbn; auto;
    now rewrite app_nil_r.
Qed.

Lemma recv_exactly_finish_conserves n nc :
  delivered (sock (snd (recv_exactly_finish n nc))) = delivered (sock nc) /\
  payload (fst (recv_exactly_finish n nc)) ++ buf (snd (recv_exactly_finish n nc))
    = buf nc.
Proof. cbn. split; [reflexivity | apply slice_partition]. Qed.

End Conservation.

Section ConservationOfCalls.

Variable clock : nat -> Z.

(** X1: whatever the socket does and however [recv] ends, no byte is
    lost, duplicated or reordered: what it returns (nothing when it
    raises) followed by the residual buffer it leaves is the residual
    buffer it found followed by what its raw read delivered.  This
    holds for every [n], negative ones included, as long as the
    default deadline is one the socket accepts. *)
Theorem recv_conserves (n : Z) (timeout : timeout_arg) (nc : Netcat)
  (Hdef : accepted_timeout (_timeout nc)) :
  exists got, conserves nc (recv n timeout nc) got.
Proof.
  unfold conserves.
  destruct nc as [b [d inc del out wr] p pi t late rl sl tk].
  cbn in Hdef.
  unfold recv, bind, set_timed_out, get, try_except, _log_recv, set_buf, ret,
    on_sock, sock_recv, sock_settimeout.
  cbn. rewrite ?andb_false_r.
  destruct b as [|x b]; cbn.
  - destruct timeout as [| |T], inc as [|[c| | |] rest], t as [z|];
      cbn in Hdef |- *; rewrite ?Z.sub_0_r;
      repeat match goal with
        | |- context [if ?c <? ?d then _ else _] => destruct (Z.ltb_spec c d); cbn
        | |- context [if nonempty ?c then _ else _] => destruct (nonempty c); cbn
        end;
      first [ exfalso; lia
            | exists []; cbn; rewrite ?app_nil_r; split; reflexivity
            | eexists [_]; cbn; rewrite ?app_nil_r; split; reflexivity ].
  - exists []. cbn. rewrite !app_nil_r. split; [reflexivity|].
    apply (slice_partition (x :: b) n).
Qed.

Lemma recv_conserves_witness :
  exists got,
    conserves (connected ["a"; "b"; "c"]%byte [RData ping_nl])
      (recv (-1) (Secs 5) (connected ["a"; "b"; "c"]%byte [RData ping_nl])) got.
Proof.
  apply (recv_conserves (-1) (Secs 5) (connected ["a"; "b"; "c"]%byte [RData ping_nl])).
  exact I.
Defined.

(** X2: the same for [recv_until], for every script, clock, timeout
    and step budget, whether it finds the delimiter, times out, or
    lets an exception through. *)
Theorem recv_until_conserves (fuel : nat) (s : bytes) (timeout : timeout_arg)
  (nc : Netcat) :
  exists got, conserves nc (recv_until clock fuel s timeout nc) got.
Proof.
  unfold conserves. rewrite recv_until_unfold.
  destruct (recv_until_loop_conserves clock s (resolved timeout nc) (clock (ticks nc))
              fuel (entering nc)) as (got & Hd & Hb).
  exists got.
  change (delivered (sock (entering nc))) with (delivered (sock nc)) in Hd.
  change (buf (entering nc)) with (buf nc) in Hb.
  destruct (recv_until_loop clock fuel s (resolved timeout nc) (clock (ticks nc))
              (entering nc)) as [[[]|e|] nc1]; cbn [fst snd payload] in *.
  - destruct (recv_until_finish_conserves s nc1) as [H1 H2].
    rewrite H1, H2. auto.
  - destruct e; cbn [fst snd payload]; rewrite ?app_nil_l; auto.
    destruct (recv_until_finish_conserves s (with_timed_out true nc1)) as [H1 H2].
    rewrite H1, H2. auto.
  - auto.
Qed.

(** X3: the same for [recv_all]. *)
Theorem recv_all_conserves (fuel : nat) (timeout : timeout_arg) (nc : Netcat) :
  exists got, conserves nc (recv_all clock fuel timeout nc) got.
Proof.
  unfold conserves. rewrite recv_all_unfold.
  destruct (recv_all_loop_conserves clock (resolved timeout nc) (clock (ticks nc))
              fuel (entering nc)) as (got & Hd & Hb).
  exists got.
  change (delivered (sock (entering nc))) with (delivered (sock nc)) in Hd.
  change (buf (entering nc)) with (buf nc) in Hb.
  destruct (recv_all_loop clock fuel (resolved timeout nc) (clock (ticks nc))
              (entering nc)) as [[[]|e|] nc1]; cbn [fst snd payload] in *.
  - destruct (recv_all_finish_conserves nc1) as [H1 H2]. rewrite H1, H2. auto.
  - destruct e; cbn [fst snd payload]; rewrite ?app_nil_l; auto;
      match goal with
      | |- context [recv_all_finish ?x] =>
          destruct (recv_all_finish_conserves x) as [H1 H2]; rewrite H1, H2; auto
      end.
  - auto.
Qed.

(** X4: the same for [recv_exactly], for every [n]. *)
Theorem recv_exactly_conserves (fuel : nat) (n : Z) (timeout : timeout_arg)
  (nc : Netcat) :
  exists got, conserves nc (recv_exactly clock fuel n timeout nc) got.
Proof.
  unfold conserves. rewrite recv_exactly_unfold.
  destruct (recv_exactly_loop_conserves clock n (resolved timeout nc)
              (clock (ticks nc)) fuel (entering nc)) as (got & Hd & Hb).
  exists got.
  change (delivered (sock (entering nc))) with (delivered (sock nc)) in Hd.
  change (buf (entering nc)) with (buf nc) in Hb.
  destruct (recv_exactly_loop clock fuel n (resolved timeout nc) (clock (ticks nc))
              (entering nc)) as [[[]|e|] nc1]; cbn [fst snd payload] in *.
  - destruct (recv_exactly_finish_conserves n nc1) as [H1 H2].
    rewrite H1, H2. auto.
  - destruct e; cbn [fst snd payload]; rewrite ?app_nil_l; auto;
      match goal with
      | |- context [recv_exactly_finish n ?x] =>
          destruct (recv_exactly_finish_conserves n x) as [H1 H2];
          rewrite H1, H2; auto
      end.
  - auto.
Qed.

End ConservationOfCalls.

(** ** What [recv_until] hands out *)

Lemma firstn_find (b s : bytes) (i : nat) :
  find b s = Some i -> firstn (i + length s) b = firstn i b ++ s.
Proof.
  intros Hfind. destruct (find_occurrence b s i Hfind) as [Hocc _].
  pose proof (find_bound b s i Hfind) as Hbound.
  rewrite Hocc at 1. rewrite firstn_app, length_firstn.
  replace (Nat.min i (length b)) with i by lia.
  replace (i + length s - i)%nat with (length s) by lia.
  rewrite firstn_app, Nat.sub_diag, firstn_all, firstn_O, app_nil_r.
  rewrite (firstn_all2 (n := i + length s)); [reflexivity|].
  rewrite length_firstn. lia.
Qed.

Lemma startswith_firstn (b s : bytes) (j m : nat) :
  startswith (skipn j (firstn m b)) s = true -> startswith (skipn j b) s = true.
Proof.
  intros H. rewrite <- (firstn_skipn m b), skipn_app.
  now apply startswith_app.
Qed.

(** What the statements after the loop of [recv_until] return, by the
    value of [timed_out]. *)
Lemma recv_until_finish_returns s nc r nc' :
  recv_until_finish s nc = (Ret r, nc') ->
  timed_out nc' = timed_out nc /\
  (timed_out nc = true -> r = buf nc /\ buf nc' = []) /\
  (timed_out nc = false ->
   exists i, find (buf nc) s = Some i /\
             r = firstn (i + length s) (buf nc) /\
             buf nc' = skipn (i + length s) (buf nc)).
Proof.
  unfold recv_until_finish, bind, get, on_sock, _head_buf. cbn.
  destruct (sock_settimeout (_timeout nc) (sock nc)) as [[[]|e|] s'];
    cbn; try discriminate.
  destruct (timed_out nc) eqn:Hl; cbn.
  - intros [= <- <-]. cbn. rewrite slice_to_len, slice_from_len.
    split; [exact Hl|]. split; [auto | discriminate].
  - destruct (find (buf nc) s) as [i|]; cbn; [|discriminate].
    intros [= <- <-]. cbn.
    assert (Hpos : 0 <= Z.of_nat i + len s) by (unfold len; lia).
    rewrite slice_to_nonneg, slice_from_nonneg by exact Hpos.
    replace (Z.to_nat (Z.of_nat i + len s)) with (i + length s)%nat
      by (unfold len; lia).
    split; [exact Hl|]. split; [discriminate|]. intros _. now exists i.
Qed.

(** X5: whenever [recv_until] returns with [timed_out] false, what it
    returns ends with the delimiter and contains it nowhere earlier;
    whenever it returns with [timed_out] true, it has returned the
    whole accumulation and the residual buffer is empty.  This holds
    for every script, clock, timeout and step budget. *)
Theorem recv_until_result (clock : nat -> Z) (fuel : nat) (s : bytes)
  (timeout : timeout_arg) (nc : Netcat) (r : bytes) (nc' : Netcat)
  (Hrun : recv_until clock fuel s timeout nc = (Ret r, nc')) :
  (timed_out nc' = false ->
   exists pre, r = pre ++ s /\
     forall j, (j < length pre)%nat -> startswith (skipn j r) s = false) /\
  (timed_out nc' = true -> buf nc' = []).
Proof.
  rewrite recv_until_unfold in Hrun.
  assert (Hfin : forall nc1,
             recv_until_finish s nc1 = (Ret r, nc') ->
             (timed_out nc' = false ->
              exists pre, r = pre ++ s /\
                forall j, (j < length pre)%nat -> startswith (skipn j r) s = false) /\
             (timed_out nc' = true -> buf nc' = [])).
  { intros nc1 H. apply recv_until_finish_returns in H.
    destruct H as (Hsame & Hlate & Hfound). split.
    - intros Hf. rewrite Hsame in Hf.
      destruct (Hfound Hf) as (i & Hfind & -> & _).
      exists (firstn i (buf nc1)). split; [now apply firstn_find|].
      intros j Hj. rewrite length_firstn in Hj.
      destruct (find_occurrence _ _ _ Hfind) as [_ Hmin].
      destruct (startswith (skipn j (firstn (i + length s) (buf nc1))) s) eqn:E;
        [|reflexivity].
      apply startswith_firstn in E. rewrite Hmin in E by lia. discriminate.
    - intros Ht. rewrite Hsame in Ht. now destruct (Hlate Ht). }
  destruct (recv_until_loop clock fuel s (resolved timeout nc) (clock (ticks nc))
              (entering nc)) as [[[]|e|] nc1]; try discriminate.
  - now apply (Hfin nc1).
  - destruct e; try discriminate. now apply (Hfin (with_timed_out true nc1)).
Qed.

Lemma recv_until_result_witness :
  (timed_out
     (snd (recv_until steady 5 [x0a] Default
             (connected [] [RData ["o"; "k"; x0a; "x"]%byte]))) = false ->
   exists pre, ["o"; "k"; x0a]%byte = pre ++ [x0a] /\
     forall j, (j < length pre)%nat ->
               startswith (skipn j ["o"; "k"; x0a]%byte) [x0a] = false) /\
  (timed_out
     (snd (recv_until steady 5 [x0a] Default
             (connected [] [RData ["o"; "k"; x0a; "x"]%byte]))) = true ->
   buf (snd (recv_until steady 5 [x0a] Default
               (connected [] [RData ["o"; "k"; x0a; "x"]%byte]))) = []).
Proof.
  apply (recv_until_result steady 5 [x0a] Default
           (connected [] [RData ["o"; "k"; x0a; "x"]%byte]) ["o"; "k"; x0a]%byte).
  vm_compute. reflexivity.
Defined.

(** ** The receive loops at a failing raw read *)

Lemma sock_recv_fails (k : Z) (ev : read_event) (e : exn) d rest del out wr :
  0 <= k -> raw_exception ev = Some e ->
  sock_recv k (mkSocket d (ev :: rest) del out wr) =
    (Raise e, mkSocket d rest del out wr).
Proof.
  intros Hk He. unfold sock_recv. destruct (Z.ltb_spec k 0); [lia|].
  destruct ev; cbn in He |- *; try discriminate; now injection He as <-.
Qed.

Section FailingRead.

Variable clock : nat -> Z.
Variable timeout : option Z.
Variable start : Z.
Variable out : list write_event.
Variable wr : list write_call.
Variable p : option addr.
Variable pi : bool.
Variable t : option Z.
Variable sl : list bytes.
Variable ev : read_event.
Variable e : exn.
Hypothesis Hev : raw_exception ev = Some e.

Local Abbreviation St b d inc del late rl tk :=
  (mkNetcat b (mkSocket d inc del out wr) p pi t late rl sl tk).

Lemma recv_until_loop_fails (s : bytes) (fuel : nat) (b : bytes) d rest del late rl tk :
  contains b s = false ->
  (exists tk',
      timeout <> None /\
      recv_until_loop clock (S fuel) s timeout start
        (St b d (ev :: rest) del late rl tk) =
      (Ret tt, St b d (ev :: rest) del true rl tk'))
  \/
  (exists d' tk',
      recv_until_loop clock (S fuel) s timeout start
        (St b d (ev :: rest) del late rl tk) =
      (Raise e, St b d' rest del late rl tk')).
Proof.
  intros Hb. rewrite recv_until_loop_step by exact Hb.
  destruct (check_deadline_cases clock timeout start b d (ev :: rest) del
              out wr p pi t late rl sl tk)
    as [[tk' Hck]|[d' [tk' Hck]]]; rewrite Hck.
  - left. exists tk'. split; [|reflexivity].
    intros ->. cbn in Hck. discriminate.
  - right. exists d', tk'. unfold on_sock. fields.
    rewrite (sock_recv_fails 4096 ev e) by (lia || exact Hev). reflexivity.
Qed.

Lemma recv_all_loop_fails (fuel : nat) (b : bytes) d rest del late rl tk :
  (exists tk',
      timeout <> None /\
      recv_all_loop clock (S fuel) timeout start
        (St b d (ev :: rest) del late rl tk) =
      (Ret tt, St b d (ev :: rest) del true rl tk'))
  \/
  (exists d' tk',
      recv_all_loop clock (S fuel) timeout start
        (St b d (ev :: rest) del late rl tk) =
      (Raise e, St b d' rest del late rl tk')).
Proof.
  rewrite recv_all_loop_step.
  destruct (check_deadline_cases clock timeout start b d (ev :: rest) del
              out wr p pi t late rl sl tk)
    as [[tk' Hck]|[d' [tk' Hck]]]; rewrite Hck.
  - left. exists tk'. split; [|reflexivity].
    intros ->. cbn in Hck. discriminate.
  - right. exists d', tk'. unfold on_sock. fields.
    rewrite (sock_recv_fails 4096 ev e) by (lia || exact Hev). reflexivity.
Qed.

Lemma recv_exactly_loop_fails (n : Z) (fuel : nat) (b : bytes) d rest del late rl tk :
  len b < n ->
  (exists tk',
      timeout <> None /\
      recv_exactly_loop clock (S fuel) n timeout start
        (St b d (ev :: rest) del late rl tk) =
      (Ret tt, St b d (ev :: rest) del true rl tk'))
  \/
  (exists d' tk',
      recv_exactly_loop clock (S fuel) n timeout start
        (St b d (ev :: rest) del late rl tk) =
      (Raise e, St b d' rest del late rl tk')).
Proof.
  intros Hb. rewrite recv_exactly_loop_step by exact Hb.
  destruct (check_deadline_cases clock timeout start b d (ev :: rest) del
              out wr p pi t late rl sl tk)
    as [[tk' Hck]|[d' [tk' Hck]]]; rewrite Hck.
  - left. exists tk'. split; [|reflexivity].
    intros ->. cbn in Hck. discriminate.
  - right. exists d', tk'. unfold on_sock. fields.
    rewrite (sock_recv_fails (n - len b) ev e) by (lia || exact Hev). reflexivity.
Qed.

End FailingRead.

(** ** Raw failures, method by method *)

(** X6: [recv_all] never lets a failing raw read through.  When, after
    some data, a raw read times out, fails with a socket error or is
    interrupted from the keyboard, [recv_all] returns normally and
    leaves the residual buffer empty; with no deadline in effect it
    returns everything delivered before the failure, and [timed_out]
    is set exactly when the failure was [socket.timeout], so a socket
    error or an interrupt cannot be told from a peer that closed. *)
Theorem recv_all_swallows_failure (clock : nat -> Z) (fuel : nat)
  (timeout : timeout_arg) (nc : Netcat) (chunks : list bytes)
  (ev : read_event) (e : exn) (rest : list read_event)
  (Hin : incoming (sock nc) = map RData chunks ++ ev :: rest)
  (Hev : raw_exception ev = Some e)
  (Hne : Forall (fun x : bytes => x <> []) chunks)
  (Hdef : accepted_timeout (_timeout nc))
  (Hfuel : (cost chunks < fuel)%nat) :
  exists r nc',
    recv_all clock fuel timeout nc = (Ret r, nc') /\
    buf nc' = [] /\
    (unlimited nc timeout ->
     r = buf nc ++ concat chunks /\
     timed_out nc' = match ev with RTimeout => true | _ => false end).
Proof.
  rewrite recv_all_unfold.
  assert (HT : unlimited nc timeout -> resolved timeout nc = None)
    by apply resolved_unlimited.
  set (T := resolved timeout nc) in *. clearbody T.
  destruct nc as [b [dl inc del out wr] p pi t late rl sl tk].
  cbn in Hin, Hdef. subst inc. unfold entering. fields.
  destruct (recv_all_loop_data clock T (clock tk) (ev :: rest) out wr p pi t sl fuel
              chunks b dl del false rl (S tk) Hne)
    as [(got & chunks' & d' & rl' & tk' & Hto & Hrun & Hsplit)
       |(got & d' & rl' & tk' & fuel' & Hfuel' & Hgot & Hrun)]; [lia | |].
  - rewrite Hrun, (recv_all_finish_run out wr p pi t sl Hdef).
    do 2 eexists. split; [reflexivity|]. fields.
    split; [reflexivity|]. intros Hu. now apply HT in Hu.
  - rewrite Hrun. destruct fuel' as [|fuel']; [lia|].
    destruct (recv_all_loop_fails clock T (clock tk) out wr p pi t sl ev e Hev fuel'
                (b ++ concat chunks) d' rest (del ++ got) false rl' tk')
      as [(tk2 & Hto & Hrun2)|(d2 & tk2 & Hrun2)]; rewrite Hrun2.
    + rewrite (recv_all_finish_run out wr p pi t sl Hdef).
      do 2 eexists. split; [reflexivity|]. fields.
      split; [reflexivity|]. intros Hu. now apply HT in Hu.
    + destruct ev; cbn in Hev; try discriminate; injection Hev as <-; fields;
        rewrite (recv_all_finish_run out wr p pi t sl Hdef);
        do 2 eexists; (split; [reflexivity|]); fields; auto.
Qed.

Lemma recv_all_swallows_failure_witness :
  exists r nc',
    recv_all steady 5 NoTimeout (connected ["a"%byte] [RData ["b"%byte]; RError]) =
      (Ret r, nc') /\
    buf nc' = [] /\
    (unlimited (connected ["a"%byte] [RData ["b"%byte]; RError]) NoTimeout ->
     r = ["a"%byte] ++ concat [["b"%byte]] /\
     timed_out nc' = false).
Proof.
  apply (recv_all_swallows_failure steady 5 NoTimeout
           (connected ["a"%byte] [RData ["b"%byte]; RError]) [["b"%byte]]
           RError socket_error []).
  - reflexivity.
  - reflexivity.
  - repeat constructor; discriminate.
  - exact I.
  - unfold cost. simpl. lia.
Defined.

(** X7: [recv_until] does not catch a socket error or a keyboard
    interrupt: the exception reaches the caller as it is, and the
    bytes read before it stay in the residual buffer, so a later call
    still sees them. *)
Theorem recv_until_lets_failure_through (clock : nat -> Z) (fuel : nat) (s : bytes)
  (timeout : timeout_arg) (nc : Netcat) (chunks : list bytes)
  (ev : read_event) (e : exn) (rest : list read_event)
  (Hin : incoming (sock nc) = map RData chunks ++ ev :: rest)
  (Hev : raw_exception ev = Some e)
  (Hnt : ev <> RTimeout)
  (Hs : contains (buf nc ++ concat chunks) s = false)
  (Hun : unlimited nc timeout)
  (Hfuel : (cost chunks < fuel)%nat) :
  exists nc',
    recv_until clock fuel s timeout nc = (Raise e, nc') /\
    buf nc' = buf nc ++ concat chunks /\
    incoming (sock nc') = rest.
Proof.
  rewrite recv_until_unfold, (resolved_unlimited timeout nc Hun).
  destruct nc as [b [dl inc del out wr] p pi t late rl sl tk].
  cbn in Hin, Hs. subst inc. unfold entering. fields.
  destruct (recv_until_loop_data clock None (clock tk) (ev :: rest) out wr p pi t
              sl s fuel chunks b dl del false rl (S tk))
    as [(got & chunks' & d' & rl' & tk' & Hrun & Hfound & Hsplit & _)
       |[(got & chunks' & d' & rl' & tk' & Hto & _)
        |(got & d' & rl' & tk' & fuel' & Hfuel' & Hnot & Hgot & Hrun)]];
    [lia | | congruence |].
  - apply (contains_app _ (concat chunks')) in Hfound.
    rewrite <- app_assoc, Hsplit in Hfound. congruence.
  - rewrite Hrun. destruct fuel' as [|fuel']; [lia|].
    destruct (recv_until_loop_fails clock None (clock tk) out wr p pi t sl ev e Hev s
                fuel' (b ++ concat chunks) d' rest (del ++ got) false rl' tk' Hnot)
      as [(tk2 & Hto & _)|(d2 & tk2 & Hrun2)]; [congruence|].
    rewrite Hrun2.
    destruct ev; cbn in Hev; try discriminate; try congruence;
      injection Hev as <-; eexists; (split; [reflexivity|]); fields; auto.
Qed.

Lemma recv_until_lets_failure_through_witness :
  exists nc',
    recv_until steady 5 [x0a] NoTimeout (connected [] [RData ["o"; "k"]%byte; RError]) =
      (Raise socket_error, nc') /\
    buf nc' = [] ++ concat [["o"; "k"]%byte] /\
    incoming (sock nc') = [].
Proof.
  apply (recv_until_lets_failure_through steady 5 [x0a] NoTimeout
           (connected [] [RData ["o"; "k"]%byte; RError]) [["o"; "k"]%byte]
           RError socket_error []).
  - reflexivity.
  - reflexivity.
  - discriminate.
  - reflexivity.
  - exact I.
  - unfold cost. simpl. lia.
Defined.

(** X8: a keyboard interrupt during [recv_exactly] is swallowed: the
    call returns what it has, fewer than [n] bytes, and with no
    deadline in effect [timed_out] stays false, so the short result
    carries no sign of why it is short. *)
Theorem recv_exactly_interrupted (clock : nat -> Z) (fuel : nat) (n : Z)
  (timeout : timeout_arg) (nc : Netcat) (chunks : list bytes)
  (rest : list read_event)
  (Hin : incoming (sock nc) = map RData chunks ++ RInterrupt :: rest)
  (Hne : Forall (fun x : bytes => x <> []) chunks)
  (Hshort : len (buf nc) + len (concat chunks) < n)
  (Hfuel : (cost chunks < fuel)%nat) :
  exists r nc',
    recv_exactly clock fuel n timeout nc = (Ret r, nc') /\
    len r < n /\
    buf nc' = [] /\
    (unlimited nc timeout ->
     r = buf nc ++ concat chunks /\ timed_out nc' = false).
Proof.
  rewrite recv_exactly_unfold.
  assert (HT : unlimited nc timeout -> resolved timeout nc = None)
    by apply resolved_unlimited.
  set (T := resolved timeout nc) in *. clearbody T.
  destruct nc as [b [dl inc del out wr] p pi t late rl sl tk].
  cbn in Hin, Hshort. subst inc. unfold entering. fields.
  assert (Hfin : forall got chunks' d' inc' late' tk',
             concat got ++ concat chunks' = concat chunks ->
             exists r nc',
               recv_exactly_finish n
                 (mkNetcat (b ++ concat got) (mkSocket d' inc' (del ++ got) out wr)
                    p pi t late' rl sl tk') = (Ret r, nc') /\
               len r < n /\ buf nc' = [] /\
               r = b ++ concat got /\ timed_out nc' = late').
  { intros got chunks' d' inc' late' tk' Hsplit.
    assert (Hlen : len (b ++ concat got) < n).
    { pose proof (len_nonneg (concat chunks')).
      rewrite <- Hsplit, !len_app in Hshort. rewrite len_app. lia. }
    destruct (slice_short _ _ Hlen) as [Hto Hfrom].
    rewrite recv_exactly_finish_run, Hto, Hfrom.
    do 2 eexists. split; [reflexivity|]. fields. auto. }
  destruct (recv_exactly_loop_data clock T (clock tk) (RInterrupt :: rest) out wr
              p pi t sl n fuel chunks b dl del false rl (S tk) Hne Hshort)
    as [(got & chunks' & d' & tk' & Hto & Hrun & Hsplit)
       |(got & d' & tk' & fuel' & Hfuel' & Hgot & Hrun)]; [lia | |].
  - rewrite Hrun.
    destruct (Hfin got chunks' d' (map RData chunks' ++ RInterrupt :: rest) true tk'
                Hsplit) as (r & nc' & Hr & Hl & Hb & _).
    exists r, nc'. split; [exact Hr|]. split; [exact Hl|]. split; [exact Hb|].
    intros Hu. now apply HT in Hu.
  - rewrite Hrun. destruct fuel' as [|fuel']; [lia|].
    assert (Hb : len (b ++ concat chunks) < n) by (rewrite len_app; lia).
    destruct (recv_exactly_loop_fails clock T (clock tk) out wr p pi t sl RInterrupt
                KeyboardInterrupt eq_refl n fuel' (b ++ concat chunks) d' rest
                (del ++ got) false rl tk' Hb)
      as [(tk2 & Hto & Hrun2)|(d2 & tk2 & Hrun2)]; rewrite Hrun2; fields;
      rewrite <- Hgot.
    + destruct (Hfin got [] d' (RInterrupt :: rest) true tk2)
        as (r & nc' & Hr & Hl & Hbf & _); [now rewrite app_nil_r|].
      exists r, nc'. split; [exact Hr|]. split; [exact Hl|]. split; [exact Hbf|].
      intros Hu. now apply HT in Hu.
    + destruct (Hfin got [] d2 rest false tk2)
        as (r & nc' & Hr & Hl & Hbf & Hreq & Hlate); [now rewrite app_nil_r|].
      exists r, nc'. split; [exact Hr|]. split; [exact Hl|]. split; [exact Hbf|].
      intros _. split; [exact Hreq | exact Hlate].
Qed.

Lemma recv_exactly_interrupted_witness :
  exists r nc',
    recv_exactly steady 5 4 NoTimeout (connected [] [RData ["o"; "k"]%byte; RInterrupt])
      = (Ret r, nc') /\
    len r < 4 /\
    buf nc' = [] /\
    (unlimited (connected [] [RData ["o"; "k"]%byte; RInterrupt]) NoTimeout ->
     r = [] ++ concat [["o"; "k"]%byte] /\ timed_out nc' = false).
Proof.
  apply (recv_exactly_interrupted steady 5 4 NoTimeout
           (connected [] [RData ["o"; "k"]%byte; RInterrupt]) [["o"; "k"]%byte] []).
  - reflexivity.
  - repeat constructor; discriminate.
  - cbn. lia.
  - unfold cost. simpl. lia.
Defined.

(** X9: a socket error during [recv_exactly] becomes
    [NetcatError("Socket error!")], and the bytes read before it stay
    in the residual buffer. *)
Theorem recv_exactly_socket_error (clock : nat -> Z) (fuel : nat) (n : Z)
  (timeout : timeout_arg) (nc : Netcat) (chunks : list bytes)
  (rest : list read_event)
  (Hin : incoming (sock nc) = map RData chunks ++ RError :: rest)
  (Hne : Forall (fun x : bytes => x <> []) chunks)
  (Hshort : len (buf nc) + len (concat chunks) < n)
  (Hun : unlimited nc timeout)
  (Hfuel : (cost chunks < fuel)%nat) :
  exists nc',
    recv_exactly clock fuel n timeout nc =
      (Raise (NetcatError "Socket error!"), nc') /\
    buf nc' = buf nc ++ concat chunks /\
    recv_log nc' = recv_log nc.
Proof.
  rewrite recv_exactly_unfold, (resolved_unlimited timeout nc Hun).
  destruct nc as [b [dl inc del out wr] p pi t late rl sl tk].
  cbn in Hin, Hshort. subst inc. unfold entering. fields.
  destruct (recv_exactly_loop_data clock None (clock tk) (RError :: rest) out wr
              p pi t sl n fuel chunks b dl del false rl (S tk) Hne Hshort)
    as [(got & chunks' & d' & tk' & Hto & _)
       |(got & d' & tk' & fuel' & Hfuel' & Hgot & Hrun)]; [lia | congruence |].
  rewrite Hrun. destruct fuel' as [|fuel']; [lia|].
  assert (Hb : len (b ++ concat chunks) < n) by (rewrite len_app; lia).
  destruct (recv_exactly_loop_fails clock None (clock tk) out wr p pi t sl RError
              socket_error eq_refl n fuel' (b ++ concat chunks) d' rest
              (del ++ got) false rl tk' Hb)
    as [(tk2 & Hto & _)|(d2 & tk2 & Hrun2)]; [congruence|].
  rewrite Hrun2. eexists. split; [reflexivity|]. fields. auto.
Qed.

Lemma recv_exactly_socket_error_witness :
  exists nc',
    recv_exactly steady 5 4 NoTimeout (connected [] [RData ["o"; "k"]%byte; RError]) =
      (Raise (NetcatError "Socket error!"), nc') /\
    buf nc' = [] ++ concat [["o"; "k"]%byte] /\
    recv_log nc' = [].
Proof.
  apply (recv_exactly_socket_error steady 5 4 NoTimeout
           (connected [] [RData ["o"; "k"]%byte; RError]) [["o"; "k"]%byte] []).
  - reflexivity.
  - repeat constructor; discriminate.
  - cbn. lia.
  - exact I.
  - unfold cost. simpl. lia.
Defined.

(** ** [recv_exactly] when the bytes arrive *)

Section Filling.

Variable clock : nat -> Z.
Variable timeout : option Z.
Variable start : Z.
Variable tail : list read_event.
Variable out : list write_event.
Variable wr : list write_call.
Variable p : option addr.
Variable pi : bool.
Variable t : option Z.
Variable sl : list bytes.

Local Abbreviation St b d inc del late rl tk :=
  (mkNetcat b (mkSocket d inc del out wr) p pi t late rl sl tk).


End Filling.



(** ** [recv] when its raw read fails *)

(** X11: what [recv] makes of a raw read that fails, on an empty
    residual buffer: [socket.timeout] is turned into the return value
    [b''] with [timed_out] set, reported to [_log_recv], and the
    default deadline is put back; another [socket.error] becomes
    [NetcatError("Socket error!")] and a keyboard interrupt passes
    through, both leaving before the restore, so that the socket keeps
    the deadline of the call. *)
Theorem recv_failing_read (n : Z) (timeout : timeout_arg) (nc : Netcat)
  (ev : read_event) (rest : list read_event) (e : exn)
  (Hbuf : buf nc = [])
  (Hin : incoming (sock nc) = ev :: rest)
  (Hev : raw_exception ev = Some e)
  (Hn : 0 <= n)
  (Hcall : accepted_timeout (own_deadline timeout))
  (Hdef : accepted_timeout (_timeout nc)) :
  exists nc',
    recv n timeout nc =
      (match e with
       | socket_timeout => Ret []
       | socket_error => Raise (NetcatError "Socket error!")
       | _ => Raise e
       end, nc') /\
    timed_out nc' = (match e with socket_timeout => true | _ => false end) /\
    buf nc' = [] /\
    incoming (sock nc') = rest /\
    delivered (sock nc') = delivered (sock nc) /\
    recv_log nc' = recv_log nc ++ (match e with socket_timeout => [[]] | _ => [] end) /\
    deadline (sock nc') =
      match e, timeout with
      | socket_timeout, _ => _timeout nc
      | _, Default => deadline (sock nc)
      | _, _ => own_deadline timeout
      end.
Proof.
  destruct nc as [b [d inc del out wr] p pi t late rl sl tk].
  cbn in Hbuf, Hin, Hdef. subst b inc.
  unfold recv, bind, set_timed_out, get, try_except, _log_recv, set_buf, ret,
    on_sock, sock_recv, sock_settimeout.
  cbn. rewrite ?andb_false_r, ?Z.sub_0_r.
  destruct ev as [c| | |]; cbn in Hev; [discriminate| | |]; injection Hev as <-;
    destruct timeout as [| |T], t as [z|]; cbn in Hcall, Hdef |- *;
    repeat match goal with
      | |- context [if ?c <? ?d then _ else _] => destruct (Z.ltb_spec c d); cbn
      end;
    try (exfalso; lia);
    eexists; (split; [reflexivity|]); cbn; rewrite ?app_nil_r; repeat split.
Qed.

Lemma recv_failing_read_witness :
  exists nc',
    recv 4096 (Secs 5) (connected [] [RError; RData ping_nl]) =
      (Raise (NetcatError "Socket error!"), nc') /\
    incoming (sock nc') = [RData ping_nl] /\
    deadline (sock nc') = Some 5.
Proof.
  destruct (recv_failing_read 4096 (Secs 5) (connected [] [RError; RData ping_nl])
              RError [RData ping_nl] socket_error)
    as (nc' & Hrun & _ & _ & Hinc & _ & _ & Hd).
  - reflexivity.
  - reflexivity.
  - reflexivity.
  - lia.
  - cbn. lia.
  - exact I.
  - exists nc'. split; [exact Hrun|]. split; [exact Hinc | exact Hd].
Defined.

(** ** [recv_all] never raises *)






(** ** Calls served from the residual buffer *)

(** X13: two [recv] calls in a row on a buffer that the first does not
    exhaust return together what one call for the sum would: the
    first [n1 + n2] buffered bytes, split at [n1]; neither reads the
    socket. *)
Theorem recv_twice_from_buffer (n1 n2 : Z) (t1 t2 : timeout_arg) (nc : Netcat)
  (H1 : 0 <= n1 < len (buf nc)) (H2 : 0 <= n2) :
  exists r1 nc1 r2 nc2,
    recv n1 t1 nc = (Ret r1, nc1) /\
    recv n2 t2 nc1 = (Ret r2, nc2) /\
    len r1 = n1 /\
    r1 ++ r2 = firstn (Z.to_nat (n1 + n2)) (buf nc) /\
    buf nc2 = skipn (Z.to_nat (n1 + n2)) (buf nc) /\
    sock nc2 = sock nc /\
    recv_log nc2 = recv_log nc ++ [r1; r2].
Proof.
  assert (Hb : buf nc <> []).
  { intros E. rewrite E in H1. cbn in H1. lia. }
  assert (Hne : skipn (Z.to_nat n1) (buf nc) <> []).
  { intros E. apply (f_equal (@length byte)) in E.
    rewrite length_skipn in E. unfold len in H1. cbn in E. lia. }
  do 4 eexists.
  split; [apply recv_buffered_run; [tauto | exact Hb]|].
  split; [apply recv_buffered_run; [exact H2 | exact Hne]|].
  cbn [buf recv_log with_recv_log with_buf with_timed_out sock].
  replace (Z.to_nat (n1 + n2)) with (Z.to_nat n1 + Z.to_nat n2)%nat by lia.
  repeat split.
  - unfold len in *. rewrite length_firstn. lia.
  - rewrite firstn_skipn_comm.
    rewrite <- (firstn_skipn (Z.to_nat n1)
                  (firstn (Z.to_nat n1 + Z.to_nat n2) (buf nc))) at 2.
    f_equal. rewrite firstn_firstn. f_equal. lia.
  - rewrite skipn_skipn. f_equal. lia.
  - now rewrite <- app_assoc.
Qed.

Lemma recv_twice_from_buffer_witness :
  exists r1 nc1 r2 nc2,
    recv 2 Default (connected ping_nl []) = (Ret r1, nc1) /\
    recv 2 NoTimeout nc1 = (Ret r2, nc2) /\
    r1 ++ r2 = ["p"; "i"; "n"; "g"]%byte /\
    buf nc2 = [x0a].
Proof.
  destruct (recv_twice_from_buffer 2 2 Default NoTimeout (connected ping_nl []))
    as (r1 & nc1 & r2 & nc2 & Ha & Hb & _ & Hcat & Hbuf & _).
  - cbn. lia.
  - lia.
  - exists r1, nc1, r2, nc2. repeat split; assumption.
Defined.

(** X14: [recv_exactly(n)] with [n] bytes already buffered returns the
    first [n] of them and keeps the rest, without any use of the
    socket: no read, no change of its deadline; it does so for every
    [timeout] and clock, a deadline already over included, and for a
    negative [n], where the slices count from the end. *)
Theorem recv_exactly_from_buffer (clock : nat -> Z) (fuel : nat) (n : Z)
  (timeout : timeout_arg) (nc : Netcat)
  (Hn : n <= len (buf nc)) :
  exists nc',
    recv_exactly clock fuel n timeout nc = (Ret (slice_to (buf nc) n), nc') /\
    buf nc' = slice_from (buf nc) n /\
    slice_to (buf nc) n ++ buf nc' = buf nc /\
    sock nc' = sock nc /\
    timed_out nc' = false /\
    recv_log nc' = recv_log nc ++ [slice_to (buf nc) n].
Proof.
  rewrite recv_exactly_unfold, recv_exactly_loop_done by exact Hn.
  eexists. split; [reflexivity|]. cbn.
  repeat split. apply slice_partition.
Qed.

Lemma recv_exactly_from_buffer_witness :
  exists nc',
    recv_exactly (fun _ => 0) 0 (-1) (Secs (-3)) (connected ping_nl [RError]) =
      (Ret ["p"; "i"; "n"; "g"]%byte, nc') /\
    buf nc' = [x0a] /\
    sock nc' = idle_socket [RError].
Proof.
  destruct (recv_exactly_from_buffer (fun _ => 0) 0 (-1) (Secs (-3))
              (connected ping_nl [RError]))
    as (nc' & Hrun & Hb & _ & Hs & _).
  - cbn. lia.
  - exists nc'. repeat split; assumption.
Defined.

Lemma find_contains (b s : bytes) (i : nat) : find b s = Some i -> contains b s = true.
Proof. unfold contains. now intros ->. Qed.

(** X15: [recv_until(s)] with [s] already in the residual buffer
    returns up to the end of its first occurrence and keeps the rest,
    without a raw read; the only thing it does to the socket is to put
    the default deadline back. *)
Theorem recv_until_from_buffer (clock : nat -> Z) (fuel : nat) (s : bytes)
  (timeout : timeout_arg) (nc : Netcat) (i : nat)
  (Hfind : find (buf nc) s = Some i)
  (Hdef : accepted_timeout (_timeout nc)) :
  exists nc',
    recv_until clock fuel s timeout nc =
      (Ret (firstn (i + length s) (buf nc)), nc') /\
    buf nc' = skipn (i + length s) (buf nc) /\
    incoming (sock nc') = incoming (sock nc) /\
    delivered (sock nc') = delivered (sock nc) /\
    deadline (sock nc') = _timeout nc /\
    timed_out nc' = false /\
    recv_log nc' = recv_log nc ++ [firstn (i + length s) (buf nc)].
Proof.
  rewrite recv_until_unfold, recv_until_loop_done
    by (exact (find_contains _ _ _ Hfind)).
  destruct nc as [b [d inc del out wr] p pi t late rl sl tk].
  cbn in Hfind, Hdef. unfold entering. fields.
  rewrite (recv_until_finish_found out wr p pi t sl Hdef s b i) by exact Hfind.
  eexists. split; [reflexivity|]. fields. repeat split.
Qed.

Lemma recv_until_from_buffer_witness :
  exists nc',
    recv_until steady 0 [x0a] (Secs 5) (connected (ping_nl ++ ping_nl) [RError]) =
      (Ret ping_nl, nc') /\
    buf nc' = ping_nl /\
    incoming (sock nc') = [RError].
Proof.
  destruct (recv_until_from_buffer steady 0 [x0a] (Secs 5)
              (connected (ping_nl ++ ping_nl) [RError]) 4)
    as (nc' & Hrun & Hb & Hi & _).
  - reflexivity.
  - exact I.
  - exists nc'. repeat split; assumption.
Defined.

(** ** [settimeout] *)

(** X16: a negative default is refused by the socket, but
    [settimeout] has stored it before the socket raises [ValueError]:
    the object is left with a default no socket call accepts.  From
    then on a [recv] that reads a chunk raises [ValueError] at the
    restore of the default, after the read: the chunk has left the
    socket, is not returned and is not in the residual buffer. *)
Theorem settimeout_refused_is_kept (z : Z) (nc : Netcat)
  (Hz : z < 0) :
  exists nc1,
    settimeout (Some z) nc = (Raise ValueError, nc1) /\
    _timeout nc1 = Some z /\
    sock nc1 = sock nc /\
    buf nc1 = buf nc /\
    forall (n : Z) (timeout : timeout_arg) (c : bytes) (rest : list read_event),
      0 <= n -> accepted_timeout (own_deadline timeout) ->
      buf nc = [] -> incoming (sock nc) = RData c :: rest ->
      exists nc2,
        recv n timeout nc1 = (Raise ValueError, nc2) /\
        delivered (sock nc2) = delivered (sock nc) ++ [firstn (Z.to_nat n) c] /\
        buf nc2 = [].
Proof.
  destruct nc as [b [d inc del out wr] p pi t late rl sl tk].
  unfold settimeout, bind, on_sock, sock_settimeout. fields.
  destruct (Z.ltb_spec z 0) as [_|]; [|lia].
  eexists. split; [reflexivity|]. fields. repeat split.
  intros n timeout c rest Hn Hcall -> ->.
  unfold recv, bind, set_timed_out, get, try_except, _log_recv, set_buf, ret,
    on_sock, sock_recv, sock_settimeout.
  cbn. rewrite ?Z.sub_0_r.
  destruct timeout as [| |T]; cbn in Hcall |- *;
    repeat match goal with
      | |- context [if ?c <? ?d then _ else _] => destruct (Z.ltb_spec c d); cbn
      | |- context [if nonempty ?c then _ else _] => destruct (nonempty c); cbn
      end;
    try (exfalso; lia);
    eexists; (split; [reflexivity|]); cbn; rewrite ?Z.sub_0_r; split; reflexivity.
Qed.

Lemma settimeout_refused_is_kept_witness :
  exists nc1 nc2,
    settimeout (Some (-1)) (connected [] [RData ping_nl]) = (Raise ValueError, nc1) /\
    recv 4096 NoTimeout nc1 = (Raise ValueError, nc2) /\
    delivered (sock nc2) = [ping_nl] /\
    buf nc2 = [].
Proof.
  destruct (settimeout_refused_is_kept (-1) (connected [] [RData ping_nl]))
    as (nc1 & Hset & _ & _ & _ & Hrecv); [lia|].
  destruct (Hrecv 4096 NoTimeout ping_nl []) as (nc2 & Hrun & Hdel & Hbuf);
    [lia | exact I | reflexivity | reflexivity |].
  exists nc1, nc2. repeat split; assumption.
Defined.



(** ** Construction *)


(** ** [send] against any script of writes *)

(** One raw write: it raises nothing but [socket.error], accepts no
    more than it was offered, is recorded when it returns, and leaves
    the read side of the socket alone. *)
Lemma sock_write_effect (target : option addr) (data : bytes) (s : Socket) :
  incoming (snd (sock_write target data s)) = incoming s /\
  delivered (snd (sock_write target data s)) = delivered s /\
  deadline (snd (sock_write target data s)) = deadline s /\
  match fst (sock_write target data s) with
  | Ret k =>
      (k <= length data)%nat /\
      written (snd (sock_write target data s)) = written s ++ [mkWrite target data k]
  | Raise e => e = socket_error /\ written (snd (sock_write target data s)) = written s
  | Fuel => False
  end.
Proof.
  unfold sock_write. destruct (outgoing s) as [|[k|] rest]; cbn; repeat split; auto.
  apply Nat.le_min_r.
Qed.

(** One turn of the [while s] loop. *)
Lemma send_loop_step (fuel : nat) (x : byte) (s : bytes) (nc : Netcat) :
  send_loop (S fuel) (x :: s) nc =
    match (if peer_implicit nc then on_sock (sock_send (x :: s)) nc
           else match peer nc with
                | Some a => on_sock (sock_sendto (x :: s) a) nc
                | None => (Raise AttributeError, nc)
                end) with
    | (Ret k, nc1) => send_loop fuel (skipn k (x :: s)) nc1
    | (Raise e, nc1) => (Raise e, nc1)
    | (Fuel, nc1) => (Fuel, nc1)
    end.
Proof.
  cbn [send_loop nonempty negb]. unfold bind at 1. unfold get at 1.
  destruct (peer_implicit nc); [reflexivity|].
  unfold bind at 1. unfold bind at 1. unfold get at 1.
  destruct (peer nc); reflexivity.
Qed.

(** The loop of [send] against any script: what the raw writes put
    on the wire is, in order, a prefix of what was to be sent, and
    all of it when the loop returns; the loop raises nothing but
    [socket.error], or [AttributeError] when the writes are to be
    addressed and [peer] was never set. *)
Lemma send_loop_prefix (fuel : nat) :
  forall (s : bytes) (nc : Netcat),
    exists calls rest,
      written (sock (snd (send_loop fuel s nc))) = written (sock nc) ++ calls /\
      concat (map transmitted calls) ++ rest = s /\
      (fst (send_loop fuel s nc) = Ret tt -> rest = []) /\
      (forall e, fst (send_loop fuel s nc) = Raise e ->
                 e = socket_error \/
                 (e = AttributeError /\ peer_implicit nc = false /\ peer nc = None)) /\
      Forall (fun c => w_target c = if peer_implicit nc then None else peer nc) calls /\
      send_log (snd (send_loop fuel s nc)) = send_log nc /\
      buf (snd (send_loop fuel s nc)) = buf nc /\
      incoming (sock (snd (send_loop fuel s nc))) = incoming (sock nc) /\
      delivered (sock (snd (send_loop fuel s nc))) = delivered (sock nc).
Proof.
  induction fuel as [|fuel IH]; intros s nc.
  { destruct s as [|x s]; cbn.
    - exists [], []. rewrite app_nil_r. repeat split; auto; discriminate.
    - exists [], (x :: s). rewrite app_nil_r. repeat split; auto; discriminate. }
  destruct s as [|x s].
  { exists [], []. cbn. rewrite app_nil_r. repeat split; auto; discriminate. }
  rewrite send_loop_step.
  set (data := x :: s).
  assert (Hwrite : forall target,
             target = (if peer_implicit nc then None else peer nc) ->
             exists calls rest,
               let R := match on_sock (sock_write target data) nc with
                        | (Ret k, nc1) => send_loop fuel (skipn k data) nc1
                        | (Raise e, nc1) => (Raise e, nc1)
                        | (Fuel, nc1) => (Fuel, nc1)
                        end in
               written (sock (snd R)) = written (sock nc) ++ calls /\
               concat (map transmitted calls) ++ rest = data /\
               (fst R = Ret tt -> rest = []) /\
               (forall e, fst R = Raise e ->
                          e = socket_error \/
                          (e = AttributeError /\ peer_implicit nc = false /\
                           peer nc = None)) /\
               Forall (fun c => w_target c = if peer_implicit nc then None else peer nc)
                      calls /\
               send_log (snd R) = send_log nc /\
               buf (snd R) = buf nc /\
               incoming (sock (snd R)) = incoming (sock nc) /\
               delivered (sock (snd R)) = delivered (sock nc)).
  { intros target Htarget. unfold on_sock.
    destruct (sock_write_effect target data (sock nc)) as (Hi & Hd & _ & Hw).
    destruct (sock_write target data (sock nc)) as [[k|e|] s1]; cbn in Hi, Hd, Hw.
    - destruct Hw as [Hk Hw].
      destruct (IH (skipn k data) (with_sock s1 nc))
        as (calls & rest & Hwr & Hcat & Hret & Hraise & Htgt & Hsl & Hb & Hin & Hdel).
      exists (mkWrite target data k :: calls), rest. cbv zeta.
      cbn [sock with_sock peer peer_implicit send_log buf] in *.
      rewrite Hwr, Hw, <- app_assoc. repeat split; auto; try congruence.
      + cbn [map concat]. unfold transmitted at 1. cbn [w_data w_accepted].
        rewrite <- app_assoc, Hcat. apply firstn_skipn.
    - destruct Hw as [-> Hw]. exists [], data. cbv zeta. cbn.
      rewrite app_nil_r. repeat split; auto; try discriminate.
      intros e [= <-]. now left.
    - contradiction. }
  destruct (peer_implicit nc) eqn:Hpi.
  - apply (Hwrite None). reflexivity.
  - destruct (peer nc) as [a|] eqn:Hp.
    + apply (Hwrite (Some a)). reflexivity.
    + exists [], data. cbn. rewrite app_nil_r. repeat split; auto; try discriminate.
      intros e [= <-]. right. auto.
Qed.

(** X19: whatever the raw writes do ([send] may return, fail half
    way, or still be writing when the step budget is spent), what
    [send(data)] has put on the wire is, in order, a prefix of [data],
    and the whole of [data] when it returns; [_log_send] has seen
    [data] as a whole, once, before the first write; the residual
    buffer and the read side of the socket are untouched. *)
Theorem send_transmits_prefix (fuel : nat) (data : bytes) (nc : Netcat) :
  exists calls rest,
    written (sock (snd (send fuel data nc))) = written (sock nc) ++ calls /\
    concat (map transmitted calls) ++ rest = data /\
    (fst (send fuel data nc) = Ret tt -> rest = []) /\
    send_log (snd (send fuel data nc)) = send_log nc ++ [data] /\
    buf (snd (send fuel data nc)) = buf nc /\
    incoming (sock (snd (send fuel data nc))) = incoming (sock nc) /\
    delivered (sock (snd (send fuel data nc))) = delivered (sock nc).
Proof.
  destruct (send_loop_prefix fuel data (with_send_log (send_log nc ++ [data]) nc))
    as (calls & rest & Hwr & Hcat & Hret & _ & _ & Hsl & Hb & Hin & Hdel).
  exists calls, rest.
  assert (E : send fuel data nc =
              send_loop fuel data (with_send_log (send_log nc ++ [data]) nc)).
  { unfold send, bind, _log_send. reflexivity. }
  rewrite E. repeat split; assumption.
Qed.

(** X20: [send] raises nothing but [socket.error] on an object that
    has its peer as the constructor left it: the one other exception
    of its loop, the [AttributeError] of an addressed write without
    [peer], needs [peer_implicit] false with [peer] unset, which no
    way of constructing the object produces. *)
Theorem send_raises_only_socket_error (env : Env) (server : option addr)
  (sock0 : option Socket) (listen : option addr) (udp : bool)
  (nc0 nc : Netcat) (fuel : nat) (data : bytes)
  (Hinit : __init__ env server sock0 listen udp = Ret nc0)
  (Hp : peer nc = peer nc0)
  (Hpi : peer_implicit nc = peer_implicit nc0) :
  forall e, fst (send fuel data nc) = Raise e -> e = socket_error.
Proof.
  intros e He.
  assert (Hinv : peer_implicit nc = false -> peer nc <> None).
  { rewrite Hp, Hpi. revert Hinit. unfold __init__.
    destruct sock0 as [s|], server as [a|], listen as [l|], udp;
      cbn -[firstn]; try destruct (accepted env) as [conn a'];
      try destruct (first_datagram env) as [dg a'']; cbn -[firstn];
      try discriminate; intros [= <-]; cbn -[firstn]; discriminate. }
  destruct (send_loop_prefix fuel data (with_send_log (send_log nc ++ [data]) nc))
    as (_ & _ & _ & _ & _ & Hraise & _).
  destruct (Hraise e) as [->|(_ & Hf & Hn)]; [exact He | reflexivity |].
  cbn in Hf, Hn. now apply Hinv in Hf.
Qed.

Lemma send_raises_only_socket_error_witness :
  __init__ udp_env None None (Some ("0.0.0.0", 4444)) true = Ret udp_listener /\
  forall e,
    fst (send 3 ping_nl
           (with_sock (mkSocket None [] [] [WAccept 2; WError] []) udp_listener))
      = Raise e ->
    e = socket_error.
Proof.
  split; [reflexivity|].
  apply (send_raises_only_socket_error udp_env None None (Some ("0.0.0.0", 4444)) true
           udp_listener
           (with_sock (mkSocket None [] [] [WAccept 2; WError] []) udp_listener)
           3 ping_nl); reflexivity.
Defined.

(** * The interactive session *)

(** ** What [recv] and [send] leave alone *)

Lemma recv_keeps_setup (n : Z) (timeout : timeout_arg) (nc : Netcat) :
  _timeout (snd (recv n timeout nc)) = _timeout nc /\
  peer (snd (recv n timeout nc)) = peer nc /\
  peer_implicit (snd (recv n timeout nc)) = peer_implicit nc /\
  outgoing (sock (snd (recv n timeout nc))) = outgoing (sock nc) /\
  written (sock (snd (recv n timeout nc))) = written (sock nc) /\
  (buf nc = [] -> buf (snd (recv n timeout nc)) = []) /\
  fst (recv n timeout nc) <> Fuel.
Proof.
  destruct nc as [b [d inc del out wr] p pi t late rl sl tk].
  unfold recv, bind, set_timed_out, get, try_except, _log_recv, set_buf, ret,
    on_sock, sock_recv, sock_settimeout.
  cbn. rewrite ?andb_false_r.
  destruct b as [|x b]; cbn.
  - destruct timeout as [| |T], inc as [|[c| | |] rest], t as [z|];
      cbn; rewrite ?Z.sub_0_r;
      repeat match goal with
        | |- context [if ?c <? ?d then _ else _] => destruct (c <? d); cbn
        | |- context [if nonempty ?c then _ else _] => destruct (nonempty c); cbn
        end;
      repeat split; auto; discriminate.
  - repeat split; auto; discriminate.
Qed.

(** On an empty residual buffer and with an accepted default, what
    [recv] hands over is what its raw read delivered, and it raises
    nothing but the socket error it wraps and a keyboard interrupt. *)
Lemma recv_hands_over (n : Z) (nc : Netcat) :
  0 <= n -> buf nc = [] -> accepted_timeout (_timeout nc) ->
  (exists got,
      delivered (sock (snd (recv n NoTimeout nc))) = delivered (sock nc) ++ got /\
      payload (fst (recv n NoTimeout nc)) = concat got) /\
  (forall e, fst (recv n NoTimeout nc) = Raise e ->
             e = NetcatError "Socket error!" \/ e = KeyboardInterrupt).
Proof.
  destruct nc as [b [d inc del out wr] p pi t late rl sl tk].
  cbn. intros Hn -> Hdef.
  unfold recv, bind, set_timed_out, get, try_except, _log_recv, set_buf, ret,
    on_sock, sock_recv, sock_settimeout.
  cbn. rewrite ?andb_false_r, ?Z.sub_0_r.
  destruct inc as [|[c| | |] rest], t as [z|]; cbn in Hdef |- *;
    repeat match goal with
      | |- context [if ?c <? ?d then _ else _] => destruct (Z.ltb_spec c d); cbn
      | |- context [if nonempty ?c then _ else _] => destruct (nonempty c); cbn
      end;
    try (exfalso; lia);
    (split;
     [ first [ exists []; cbn; rewrite ?app_nil_r; split; reflexivity
             | eexists [_]; cbn; rewrite ?app_nil_r; split; reflexivity ]
     | intros e; try discriminate; intros [= <-]; auto ]).
Qed.

Lemma send_loop_nil (fuel : nat) (nc : Netcat) : send_loop fuel [] nc = (Ret tt, nc).
Proof. destruct fuel; reflexivity. Qed.

Lemma send_as_loop (fuel : nat) (s : bytes) (nc : Netcat) :
  send fuel s nc = send_loop fuel s (with_send_log (send_log nc ++ [s]) nc).
Proof. reflexivity. Qed.

Lemma send_loop_keeps (fuel : nat) :
  forall (s : bytes) (nc : Netcat),
    _timeout (snd (send_loop fuel s nc)) = _timeout nc /\
    peer (snd (send_loop fuel s nc)) = peer nc /\
    peer_implicit (snd (send_loop fuel s nc)) = peer_implicit nc.
Proof.
  induction fuel as [|fuel IH]; intros s nc.
  { destruct s; cbn; auto. }
  destruct s as [|x s]; [cbn; auto|].
  rewrite send_loop_step.
  assert (Hw : forall target,
             let R := match on_sock (sock_write target (x :: s)) nc with
                      | (Ret k, nc1) => send_loop fuel (skipn k (x :: s)) nc1
                      | (Raise e, nc1) => (Raise e, nc1)
                      | (Fuel, nc1) => (Fuel, nc1)
                      end in
             _timeout (snd R) = _timeout nc /\ peer (snd R) = peer nc /\
             peer_implicit (snd R) = peer_implicit nc).
  { intros target. unfold on_sock.
    destruct (sock_write target (x :: s) (sock nc)) as [[k|e|] s1]; cbv zeta;
      [|cbn; auto..].
    destruct (IH (skipn k (x :: s)) (with_sock s1 nc)) as (H1 & H2 & H3).
    rewrite H1, H2, H3. cbn. auto. }
  destruct (peer_implicit nc) eqn:Hpi; [apply (Hw None)|].
  destruct (peer nc) as [a|] eqn:Hp; [apply (Hw (Some a)) | cbn; auto].
Qed.

(** With writes that go through, the loop of [send] returns, and the
    writes still go through afterwards. *)
Lemma send_loop_completes (sfuel fuel : nat) :
  forall (s : bytes) (nc : Netcat),
    Forall accepts (outgoing (sock nc)) ->
    (peer_implicit nc = false -> peer nc <> None) ->
    (length (outgoing (sock nc)) < fuel)%nat ->
    (length (outgoing (sock nc)) < sfuel)%nat ->
    fst (send_loop fuel s nc) = Ret tt /\
    Forall accepts (outgoing (sock (snd (send_loop fuel s nc)))) /\
    (length (outgoing (sock (snd (send_loop fuel s nc)))) < sfuel)%nat.
Proof.
  induction fuel as [|fuel IH]; intros s nc Hacc Hp Hfuel Hs; [lia|].
  destruct s as [|x s]; [cbn; auto|].
  rewrite send_loop_step.
  set (data := x :: s).
  assert (Hw : forall target,
             let R := match on_sock (sock_write target data) nc with
                      | (Ret k, nc1) => send_loop fuel (skipn k data) nc1
                      | (Raise e, nc1) => (Raise e, nc1)
                      | (Fuel, nc1) => (Fuel, nc1)
                      end in
             fst R = Ret tt /\ Forall accepts (outgoing (sock (snd R))) /\
             (length (outgoing (sock (snd R))) < sfuel)%nat).
  { intros target. unfold on_sock, sock_write.
    destruct (outgoing (sock nc)) as [|[k|] rest] eqn:Hout; cbv zeta.
    - rewrite skipn_all, send_loop_nil. cbn. repeat split; [constructor | lia].
    - apply IH; cbn; [exact (Forall_inv_tail Hacc) | exact Hp | cbn in Hfuel; lia
                     | cbn in Hs; lia].
    - exfalso. exact (Forall_inv Hacc). }
  destruct (peer_implicit nc); [apply (Hw None)|].
  destruct (peer nc) as [a|]; [apply (Hw (Some a)) | now specialize (Hp eq_refl)].
Qed.

(** ** The statements of [interact] *)

Lemma py_eq_empty (a : bytes) : py_eq (PyBytes a) (PyBytes []) = negb (nonempty a).
Proof.
  unfold py_eq, bytes_eqb.
  destruct (list_eq_dec byte_eq_dec a []) as [->|H]; [reflexivity|].
  destruct a; [contradiction | reflexivity].
Qed.

Lemma serve_socket_run (sfuel : nat) (d : bool) (nc : Netcat) (tm : Terminal) :
  serve sfuel TheSocket d (nc, tm) =
    match recv 4096 NoTimeout nc with
    | (Ret a, nc1) =>
        if nonempty a
        then (Ret d, (nc1, mkTerminal (ready tm) (typed tm) (shown tm ++ [a])))
        else (Ret true, (nc1, tm))
    | (Raise e, nc1) => (Raise e, (nc1, tm))
    | (Fuel, nc1) => (Fuel, (nc1, tm))
    end.
Proof.
  unfold serve, io_bind, on_self. cbn [fst snd].
  destruct (recv 4096 NoTimeout nc) as [[a|e|] nc1]; try reflexivity.
  rewrite py_eq_empty. destruct a; reflexivity.
Qed.

(** Reading the input: what was read followed by what the input
    still holds is what it held. *)
Lemma os_read_effect (k : nat) (nc : Netcat) (tm : Terminal) :
  exists b tm1,
    os_read k (nc, tm) = (Ret b, (nc, tm1)) /\
    ready tm1 = ready tm /\ shown tm1 = shown tm /\
    b ++ concat (typed tm1) = concat (typed tm) /\
    (typed tm = [] -> b = [] /\ tm1 = tm).
Proof.
  unfold os_read. cbn [fst snd].
  destruct (typed tm) as [|c rest] eqn:Hty.
  - exists [], tm. rewrite Hty. repeat split; reflexivity.
  - eexists. eexists. split; [reflexivity|]. cbn [ready typed shown].
    repeat split; try discriminate.
    destruct (nonempty (skipn k c)) eqn:Hne.
    + cbn [concat]. now rewrite app_assoc, firstn_skipn.
    + apply nonempty_false in Hne. cbn [concat].
      rewrite <- (firstn_skipn k c) at 2. now rewrite Hne, app_nil_r.
Qed.

Lemma serve_input_run (sfuel : nat) (d : bool) (nc : Netcat) (tm : Terminal)
  (b : bytes) (tm1 : Terminal) :
  os_read 4096 (nc, tm) = (Ret b, (nc, tm1)) ->
  serve sfuel TheInput d (nc, tm) =
    match send sfuel b nc with
    | (Ret _, nc1) => (Ret d, (nc1, tm1))
    | (Raise e, nc1) => (Raise e, (nc1, tm1))
    | (Fuel, nc1) => (Fuel, (nc1, tm1))
    end.
Proof.
  intros Hrd. unfold serve, io_bind. rewrite Hrd. unfold on_self. cbn [fst snd].
  destruct (send sfuel b nc) as [[[]|e|] nc1]; reflexivity.
Qed.

Lemma for_ready_cons (sfuel : nat) (s : channel) (r : list channel) (d : bool)
  (st : Session) :
  for_ready sfuel (s :: r) d st =
    match serve sfuel s d st with
    | (Ret d', st1) => for_ready sfuel r d' st1
    | (Raise e, st1) => (Raise e, st1)
    | (Fuel, st1) => (Fuel, st1)
    end.
Proof. reflexivity. Qed.

Lemma interact_loop_step (fuel sfuel : nat) (st : Session) :
  interact_loop (S fuel) sfuel st =
    match select_select st with
    | (Ret r, st1) =>
        match for_ready sfuel r false st1 with
        | (Ret true, st2) => (Ret tt, st2)
        | (Ret false, st2) => interact_loop fuel sfuel st2
        | (Raise e, st2) => (Raise e, st2)
        | (Fuel, st2) => (Fuel, st2)
        end
    | (Raise e, st1) => (Raise e, st1)
    | (Fuel, st1) => (Fuel, st1)
    end.
Proof.
  cbn [interact_loop]. unfold io_bind at 1.
  destruct (select_select st) as [[r|e|] st1]; try reflexivity.
  unfold io_bind at 1.
  destruct (for_ready sfuel r false st1) as [[[|]|e|] st2]; reflexivity.
Qed.

(** [interact] is its loop, started after the flush of the residual
    buffer; the exceptions its handlers take end it normally, and so
    does the end of the loop. *)
Lemma interact_unfold (fuel sfuel : nat) (st : Session) :
  interact fuel sfuel st =
    match interact_loop fuel sfuel (flushed st) with
    | (Ret _, st1) => (Ret tt, st1)
    | (Raise KeyboardInterrupt, st1) => (Ret tt, st1)
    | (Raise socket_timeout, st1) => (Ret tt, st1)
    | (Raise socket_error, st1) => (Ret tt, st1)
    | (Raise (NetcatError _), st1) => (Ret tt, st1)
    | (Raise e, st1) => (Raise e, st1)
    | (Fuel, st1) => (Fuel, st1)
    end.
Proof.
  destruct st as [nc tm].
  unfold interact, flushed, io_bind, io_try, on_self, outsock_write, io_ret,
    set_timed_out, get, _log_recv, set_buf.
  cbn [fst snd buf with_timed_out].
  destruct (nonempty (buf nc)); cbn [fst snd buf with_timed_out with_recv_log recv_log];
    destruct (interact_loop fuel sfuel _) as [[[]|e|] st1];
    try reflexivity; destruct e; reflexivity.
Qed.

(** ** Invariants of the session loop

    A relation between the state before and after a stretch of the
    session, indexed by how the stretch ended, holds of the whole
    loop when it holds of [select] and of the service of one ready
    object, and composes. *)

Section SessionInvariant.

Variable sfuel : nat.
Variable Inv : Session -> Prop.
Variable Rel : Session -> Res unit -> Session -> Prop.

Hypothesis Rel_stay :
  forall st o, Inv st -> (forall e, o <> Raise e) -> Rel st o st.
Hypothesis Rel_then :
  forall a b c o, Rel a (Ret tt) b -> Rel b o c -> Rel a o c.
Hypothesis select_step :
  forall st, Inv st ->
    Rel st (void (fst (select_select st))) (snd (select_select st)) /\
    (forall r, fst (select_select st) = Ret r -> Inv (snd (select_select st))).
Hypothesis serve_step :
  forall s d st, Inv st ->
    Rel st (void (fst (serve sfuel s d st))) (snd (serve sfuel s d st)) /\
    (forall d', fst (serve sfuel s d st) = Ret d' -> Inv (snd (serve sfuel s d st))).

Lemma for_ready_invariant (r : list channel) :
  forall d st, Inv st ->
    Rel st (void (fst (for_ready sfuel r d st))) (snd (for_ready sfuel r d st)) /\
    (forall d', fst (for_ready sfuel r d st) = Ret d' ->
                Inv (snd (for_ready sfuel r d st))).
Proof.
  induction r as [|s r IH]; intros d st Hinv.
  - cbn. split; [apply Rel_stay; [exact Hinv | discriminate] | intros; exact Hinv].
  - rewrite for_ready_cons.
    destruct (serve_step s d st Hinv) as [Hrel Hnext].
    destruct (serve sfuel s d st) as [[d1|e|] st1]; cbn [fst snd void] in Hrel, Hnext |- *.
    + destruct (IH d1 st1 (Hnext d1 eq_refl)) as [Hrel2 Hnext2].
      split; [exact (Rel_then _ _ _ _ Hrel Hrel2) | exact Hnext2].
    + split; [exact Hrel | discriminate].
    + split; [exact Hrel | discriminate].
Qed.

Lemma interact_loop_invariant (fuel : nat) :
  forall st, Inv st ->
    Rel st (fst (interact_loop fuel sfuel st)) (snd (interact_loop fuel sfuel st)).
Proof.
  induction fuel as [|fuel IH]; intros st Hinv.
  - cbn. apply Rel_stay; [exact Hinv | discriminate].
  - rewrite interact_loop_step.
    destruct (select_step st Hinv) as [Hrel Hnext].
    destruct (select_select st) as [[r|e|] st1]; cbn [fst snd void] in Hrel, Hnext |- *;
      [|exact Hrel..].
    destruct (for_ready_invariant r false st1 (Hnext r eq_refl)) as [Hrel2 Hnext2].
    destruct (for_ready sfuel r false st1) as [[[|]|e|] st2];
      cbn [fst snd void] in Hrel2, Hnext2 |- *;
      try exact (Rel_then _ _ _ _ Hrel Hrel2).
    exact (Rel_then _ _ _ _ Hrel
             (Rel_then _ _ _ _ Hrel2 (IH st2 (Hnext2 false eq_refl)))).
Qed.

End SessionInvariant.

(** ** From the socket to the output *)

Lemma forwarded_then (a b c : Session) (g1 g2 : list bytes) :
  forwarded a b g1 -> forwarded b c g2 -> forwarded a c (g1 ++ g2).
Proof.
  intros (Hd1 & Hs1 & Hb1) (Hd2 & Hs2 & Hb2). unfold forwarded.
  rewrite Hd2, Hd1, Hs2, Hs1, Hb1, concat_app, <- !app_assoc.
  repeat split; auto.
Qed.

Lemma select_select_effect (st : Session) :
  fst (snd (select_select st)) = fst st /\
  typed (snd (snd (select_select st))) = typed (snd st) /\
  shown (snd (snd (select_select st))) = shown (snd st) /\
  (forall e, fst (select_select st) = Raise e ->
             e = KeyboardInterrupt \/ e = socket_error).
Proof.
  unfold select_select. cbn [snd].
  destruct (ready (snd st)) as [|[r| |] rest]; cbn; repeat split; auto;
    try discriminate; intros e [= <-]; auto.
Qed.

(** The state the forwarding needs: nothing buffered, and a default
    deadline that the socket accepts. *)
Lemma forwards_step (sfuel : nat) (s : channel) (d : bool) (st : Session) :
  buf (fst st) = [] -> accepted_timeout (_timeout (fst st)) ->
  (exists got, forwarded st (snd (serve sfuel s d st)) got) /\
  accepted_timeout (_timeout (fst (snd (serve sfuel s d st)))) /\
  (forall e, fst (serve sfuel s d st) = Raise e ->
             e = NetcatError "Socket error!" \/ e = KeyboardInterrupt \/
             e = socket_error \/
             (e = AttributeError /\ peer_implicit (fst st) = false /\
              peer (fst st) = None)) /\
  peer (fst (snd (serve sfuel s d st))) = peer (fst st) /\
  peer_implicit (fst (snd (serve sfuel s d st))) = peer_implicit (fst st).
Proof.
  destruct st as [nc tm]. cbn [fst snd]. intros Hb Hdef.
  destruct s.
  - rewrite serve_socket_run.
    destruct (recv_hands_over 4096 nc) as [(got & Hdel & Hpay) Hraise];
      [lia | exact Hb | exact Hdef |].
    destruct (recv_keeps_setup 4096 NoTimeout nc) as (Ht & Hp & Hpi & _ & _ & Hbuf & _).
    specialize (Hbuf Hb).
    destruct (recv 4096 NoTimeout nc) as [[a|e|] nc1];
      cbn [fst snd payload] in Hdel, Hpay, Hraise, Ht, Hp, Hpi, Hbuf.
    + destruct (nonempty a) eqn:Ha; cbn [fst snd];
        (split; [exists got; unfold forwarded; cbn [fst snd shown]|]).
      * rewrite Hb, concat_app, Hpay. cbn [concat]. rewrite !app_nil_r.
        repeat split; auto.
      * rewrite Ht. repeat split; auto. discriminate.
      * apply nonempty_false in Ha. rewrite Hb, <- Hpay, Ha, app_nil_r.
        repeat split; auto.
      * rewrite Ht. repeat split; auto. discriminate.
    + cbn [fst snd]. split; [exists got; unfold forwarded; cbn [fst snd]|].
      * rewrite Hb, <- Hpay, app_nil_r. repeat split; auto.
      * rewrite Ht. repeat split; auto.
        intros e0 [= <-]. destruct (Hraise e eq_refl) as [->| ->]; auto.
    + cbn [fst snd]. split; [exists got; unfold forwarded; cbn [fst snd]|].
      * rewrite Hb, <- Hpay, app_nil_r. repeat split; auto.
      * rewrite Ht. repeat split; auto. discriminate.
  - destruct (os_read_effect 4096 nc tm) as (b & tm1 & Hrd & _ & Hsh & _).
    rewrite (serve_input_run sfuel d nc tm b tm1 Hrd), send_as_loop.
    destruct (send_loop_prefix sfuel b (with_send_log (send_log nc ++ [b]) nc))
      as (_ & _ & _ & _ & _ & Hraise & _ & _ & Hbuf & _ & Hdel).
    destruct (send_loop_keeps sfuel b (with_send_log (send_log nc ++ [b]) nc))
      as (Ht & Hp & Hpi).
    destruct (send_loop sfuel b (with_send_log (send_log nc ++ [b]) nc))
      as [[[]|e|] nc1];
      cbn [fst snd buf sock with_send_log _timeout peer peer_implicit]
        in Hraise, Hbuf, Hdel, Ht, Hp, Hpi |- *;
      (split; [exists []; unfold forwarded; cbn [fst snd concat];
               rewrite Hdel, Hbuf, Hsh, Hb, !app_nil_r; repeat split; auto|]);
      rewrite Ht; repeat split; auto; try discriminate.
    intros e0 [= <-]. destruct (Hraise e eq_refl) as [->|H]; auto.
Qed.

(** X21: whatever the socket, the terminal and [select] do, and
    however [interact] ends, what it has written to the output is
    the residual buffer it found followed by what its raw reads
    delivered, in order and with nothing held back: the residual
    buffer is empty afterwards.  This needs a default deadline the
    socket accepts. *)
Theorem interact_forwards (fuel sfuel : nat) (st : Session)
  (Hdef : accepted_timeout (_timeout (fst st))) :
  exists got, forwarded st (snd (interact fuel sfuel st)) got.
Proof.
  assert (Hflush : forwarded st (flushed st) [] /\
                   accepted_timeout (_timeout (fst (flushed st)))).
  { destruct st as [nc tm]. unfold flushed, forwarded. cbn [fst snd] in *.
    destruct (nonempty (buf (with_timed_out false nc))) eqn:Hne;
      cbn [fst snd buf sock with_buf with_recv_log with_timed_out shown _timeout concat]
        in *.
    - rewrite concat_app. cbn [concat]. rewrite !app_nil_r. auto.
    - apply nonempty_false in Hne. cbn in Hne. rewrite Hne, !app_nil_r. auto. }
  destruct Hflush as [Hflush Hacc].
  assert (Hloop : exists got,
             forwarded (flushed st) (snd (interact_loop fuel sfuel (flushed st))) got).
  { refine (proj1 (interact_loop_invariant sfuel
              (fun s => buf (fst s) = [] /\ accepted_timeout (_timeout (fst s)))
              (fun a _ b => (exists got, forwarded a b got) /\
                            accepted_timeout (_timeout (fst b)))
              _ _ _ _ fuel (flushed st) _)).
    - intros s o [Hb Ha] _. split; [|exact Ha].
      exists []. unfold forwarded. cbn [concat]. rewrite Hb, !app_nil_r. auto.
    - intros a b c o [[g1 H1] _] [[g2 H2] Ha].
      split; [exists (g1 ++ g2); exact (forwarded_then _ _ _ _ _ H1 H2) | exact Ha].
    - intros s [Hb Ha].
      destruct (select_select_effect s) as (Hnc & _ & Hsh & _).
      assert (Hacc' : accepted_timeout (_timeout (fst (snd (select_select s)))))
        by (now rewrite Hnc).
      split; [split; [|exact Hacc'] | intros _ _; split; [now rewrite Hnc | exact Hacc']].
      exists []. unfold forwarded. cbn [concat]. rewrite Hnc, Hsh, Hb, !app_nil_r. auto.
    - intros s d s0 [Hb Ha].
      destruct (forwards_step sfuel s d s0 Hb Ha) as ([got Hf] & Ha' & _).
      split; [split; [exists got; exact Hf | exact Ha']|].
      intros _ _. split; [exact (proj2 (proj2 Hf)) | exact Ha'].
    - split; [exact (proj2 (proj2 Hflush)) | exact Hacc]. }
  destruct Hloop as [got Hloop].
  exists got. change got with ([] ++ got).
  apply (forwarded_then _ _ _ _ _ Hflush).
  rewrite interact_unfold.
  destruct (interact_loop fuel sfuel (flushed st)) as [[[]|e|] st1];
    try exact Hloop; destruct e; exact Hloop.
Qed.

Lemma interact_forwards_witness :
  exists got,
    forwarded (connected ["p"%byte] [RData ["i"%byte]; RError],
               terminal [SReady [TheSocket]; SReady [TheSocket]] [])
      (snd (interact 3 1
              (connected ["p"%byte] [RData ["i"%byte]; RError],
               terminal [SReady [TheSocket]; SReady [TheSocket]] [])))
      got.
Proof.
  apply (interact_forwards 3 1
           (connected ["p"%byte] [RData ["i"%byte]; RError],
            terminal [SReady [TheSocket]; SReady [TheSocket]] [])).
  exact I.
Defined.

(** ** From the input to the socket *)

Lemma relayed_then (a b c : Session) (c1 c2 : list write_call) (rest : bytes) :
  relayed a b c1 [] -> relayed b c c2 rest -> relayed a c (c1 ++ c2) rest.
Proof.
  intros (Hw1 & Hc1) (Hw2 & Hc2). unfold relayed.
  rewrite Hw2, Hw1, <- Hc1, <- Hc2, map_app, concat_app, <- !app_assoc.
  split; reflexivity.
Qed.

Lemma relays_step (sfuel : nat) (s : channel) (d : bool) (st : Session) :
  exists calls rest,
    relayed st (snd (serve sfuel s d st)) calls rest /\
    (forall d', fst (serve sfuel s d st) = Ret d' -> rest = []) /\
    (writes_go_through sfuel (fst st) ->
     rest = [] /\ writes_go_through sfuel (fst (snd (serve sfuel s d st))) /\
     fst (serve sfuel s d st) <> Fuel).
Proof.
  destruct st as [nc tm]. cbn [fst snd].
  destruct s.
  - rewrite serve_socket_run.
    destruct (recv_keeps_setup 4096 NoTimeout nc)
      as (_ & Hp & Hpi & Hout & Hwr & _ & Hfuel).
    exists [], [].
    destruct (recv 4096 NoTimeout nc) as [[a|e|] nc1];
      cbn [fst snd] in Hp, Hpi, Hout, Hwr, Hfuel |- *;
      try destruct (nonempty a); unfold relayed, writes_go_through;
      cbn [fst snd typed map concat]; rewrite Hwr, Hout, Hp, Hpi, !app_nil_r;
      repeat split; auto; try tauto; try discriminate.
  - destruct (os_read_effect 4096 nc tm) as (b & tm1 & Hrd & _ & _ & Hty & _).
    rewrite (serve_input_run sfuel d nc tm b tm1 Hrd), send_as_loop.
    destruct (send_loop_prefix sfuel b (with_send_log (send_log nc ++ [b]) nc))
      as (calls & rest & Hwr & Hcat & Hret & _).
    destruct (send_loop_keeps sfuel b (with_send_log (send_log nc ++ [b]) nc))
      as (_ & Hp & Hpi).
    pose proof (send_loop_completes sfuel sfuel b
                  (with_send_log (send_log nc ++ [b]) nc)) as Hdone.
    exists calls, rest.
    destruct (send_loop sfuel b (with_send_log (send_log nc ++ [b]) nc))
      as [[[]|e|] nc1];
      cbn [fst snd sock with_send_log peer peer_implicit] in Hwr, Hret, Hp, Hpi, Hdone |- *;
      (split; [unfold relayed; cbn [fst snd]; split; [exact Hwr|];
               rewrite <- Hty, <- Hcat, <- !app_assoc; reflexivity|]);
      (split; [intros d'; try discriminate; intros _; now apply Hret|]);
      intros (Hacc & Hpeer & Hlen);
      destruct (Hdone Hacc Hpeer Hlen Hlen) as (Hr & Hacc' & Hlen');
      try discriminate.
    split; [now apply Hret|]. split; [|discriminate].
    unfold writes_go_through. rewrite Hp, Hpi. auto.
Qed.

(** X22: whatever happens, what [interact] has put on the wire is,
    in order, a prefix of what it read from the input: the raw
    writes of the session transmit the input read, up to a rest of
    the chunk read last, which is lost when its [send] fails.  When
    every [send] of the session completes there is no such rest:
    everything read from the input is on the wire. *)
Theorem interact_relays (fuel sfuel : nat) (st : Session) :
  exists calls rest,
    relayed st (snd (interact fuel sfuel st)) calls rest /\
    (writes_go_through sfuel (fst st) -> rest = []).
Proof.
  assert (Hflush : relayed st (flushed st) [] [] /\
                   (writes_go_through sfuel (fst st) ->
                    writes_go_through sfuel (fst (flushed st)))).
  { destruct st as [nc tm]. unfold flushed, relayed, writes_go_through.
    cbn [fst snd buf with_timed_out].
    destruct (nonempty (buf nc)); cbn; rewrite app_nil_r; auto. }
  destruct Hflush as [Hflush Hgo].
  assert (Hloop : exists calls rest,
             relayed (flushed st) (snd (interact_loop fuel sfuel (flushed st)))
               calls rest /\
             (writes_go_through sfuel (fst (flushed st)) -> rest = [])).
  { set (Rel := fun (a : Session) (o : Res unit) (b : Session) =>
                  exists calls rest,
                    relayed a b calls rest /\
                    (o = Ret tt -> rest = []) /\
                    (writes_go_through sfuel (fst a) ->
                     rest = [] /\ writes_go_through sfuel (fst b))).
    assert (H : Rel (flushed st) (fst (interact_loop fuel sfuel (flushed st)))
                  (snd (interact_loop fuel sfuel (flushed st)))).
    { apply (interact_loop_invariant sfuel (fun _ => True) Rel); unfold Rel.
      - intros s o _ _. exists [], []. unfold relayed. cbn. rewrite app_nil_r. auto.
      - intros a b c o (c1 & r1 & H1 & Hr1 & Hg1) (c2 & r2 & H2 & Hr2 & Hg2).
        rewrite (Hr1 eq_refl) in H1.
        exists (c1 ++ c2), r2. split; [exact (relayed_then _ _ _ _ _ _ H1 H2)|].
        split; [exact Hr2|]. intros Hg. apply Hg2, Hg1, Hg.
      - intros s _. split; [|auto].
        destruct (select_select_effect s) as (Hnc & Hty & _).
        exists [], []. unfold relayed. cbn [map concat].
        rewrite Hnc, Hty, !app_nil_r. auto.
      - intros s d s0 _. split; [|auto].
        destruct (relays_step sfuel s d s0) as (calls & rest & Hrel & Hret & Hgo').
        exists calls, rest. split; [exact Hrel|]. split.
        + destruct (fst (serve sfuel s d s0)) as [d'| |]; cbn [void];
            try discriminate. intros _. exact (Hret d' eq_refl).
        + intros Hg. destruct (Hgo' Hg) as (Hr & Hg' & _). auto.
      - exact Logic.I. }
    destruct H as (calls & rest & Hrel & _ & Hg).
    exists calls, rest. split; [exact Hrel|]. intros Hg0. apply Hg, Hg0. }
  destruct Hloop as (calls & rest & Hloop & Hrest).
  exists calls, rest. split; [|intros Hg; apply Hrest, Hgo, Hg].
  change calls with ([] ++ calls).
  apply (relayed_then _ _ _ _ _ _ Hflush).
  rewrite interact_unfold.
  destruct (interact_loop fuel sfuel (flushed st)) as [[[]|e|] st1];
    try exact Hloop; destruct e; exact Hloop.
Qed.

(** ** How [interact] ends *)



(** At the end of the input every read returns [b''] and [send]
    issues no write for it: a session in which only the input is
    ever ready goes round and round. *)
Lemma interact_loop_idles (sfuel fuel : nat) :
  forall (nc : Netcat) (tm : Terminal),
    Forall (fun ev => ev = SReady [TheInput]) (ready tm) ->
    typed tm = [] ->
    fst (interact_loop fuel sfuel (nc, tm)) = Fuel /\
    sock (fst (snd (interact_loop fuel sfuel (nc, tm)))) = sock nc /\
    shown (snd (snd (interact_loop fuel sfuel (nc, tm)))) = shown tm /\
    send_log (fst (snd (interact_loop fuel sfuel (nc, tm)))) =
      send_log nc ++ repeat [] (Nat.min fuel (length (ready tm))).
Proof.
  induction fuel as [|fuel IH]; intros nc tm Hready Heof.
  { cbn. rewrite app_nil_r. auto. }
  rewrite interact_loop_step.
  destruct tm as [rd ty sh]. cbn [ready typed shown] in *. subst ty.
  unfold select_select. cbn [fst snd ready typed shown].
  destruct rd as [|ev rd].
  { cbn. rewrite app_nil_r. auto. }
  rewrite (Forall_inv Hready).
  rewrite for_ready_cons.
  rewrite (serve_input_run sfuel false nc (mkTerminal rd [] sh) []
             (mkTerminal rd [] sh) eq_refl).
  rewrite send_as_loop, send_loop_nil. cbn [for_ready]. unfold io_ret.
  destruct (IH (with_send_log (send_log nc ++ [[]]) nc) (mkTerminal rd [] sh)
              (Forall_inv_tail Hready) eq_refl) as (Hf & Hs & Hsh & Hsl).
  cbn [ready shown sock with_send_log send_log] in Hs, Hsh, Hsl.
  split; [exact Hf|]. split; [exact Hs|]. split; [exact Hsh|].
  etransitivity; [exact Hsl|].
  cbn [length Nat.min repeat]. now rewrite <- app_assoc.
Qed.

(** X24: the end of the input does not end the session.  When the
    input is at end of file and [select] reports nothing but the
    input, every round reads [b''] and sends it: [_log_send] sees
    [b''] once a round, no raw write is issued, nothing is written
    to the output after the flush of the residual buffer, and
    [interact] does not return within any budget. *)
Theorem interact_ignores_end_of_input (fuel sfuel : nat) (st : Session)
  (Hready : Forall (fun ev => ev = SReady [TheInput]) (ready (snd st)))
  (Heof : typed (snd st) = []) :
  fst (interact fuel sfuel st) = Fuel /\
  sock (fst (snd (interact fuel sfuel st))) = sock (fst st) /\
  concat (shown (snd (snd (interact fuel sfuel st)))) =
    concat (shown (snd st)) ++ buf (fst st) /\
  send_log (fst (snd (interact fuel sfuel st))) =
    send_log (fst st) ++ repeat [] (Nat.min fuel (length (ready (snd st)))).
Proof.
  rewrite interact_unfold.
  destruct st as [nc tm]. cbn [fst snd] in *.
  assert (Hfl : exists nc0 tm0,
             flushed (nc, tm) = (nc0, tm0) /\ ready tm0 = ready tm /\
             typed tm0 = typed tm /\ sock nc0 = sock nc /\
             send_log nc0 = send_log nc /\
             concat (shown tm0) = concat (shown tm) ++ buf nc).
  { unfold flushed. cbn [fst snd buf with_timed_out].
    destruct (nonempty (buf nc)) eqn:Hne; do 2 eexists;
      (split; [reflexivity|]); cbn; repeat split.
    - rewrite concat_app. cbn. now rewrite app_nil_r.
    - apply nonempty_false in Hne. now rewrite Hne, app_nil_r. }
  destruct Hfl as (nc0 & tm0 & -> & Hrd & Hty & Hs0 & Hsl0 & Hsh0).
  destruct (interact_loop_idles sfuel fuel nc0 tm0) as (Hf & Hs & Hsh & Hsl);
    [now rewrite Hrd | now rewrite Hty |].
  destruct (interact_loop fuel sfuel (nc0, tm0)) as [r st1].
  cbn [fst snd] in Hf, Hs, Hsh, Hsl. subst r. cbn [fst snd].
  rewrite Hs, Hsh, Hsl, Hs0, Hsl0, Hsh0, Hrd. auto.
Qed.

Lemma interact_ignores_end_of_input_witness :
  fst (interact 5 0
         (connected [] [RData ping_nl],
          terminal [SReady [TheInput]; SReady [TheInput]] [])) = Fuel /\
  send_log (fst (snd (interact 5 0
         (connected [] [RData ping_nl],
          terminal [SReady [TheInput]; SReady [TheInput]] [])))) = [[]; []].
Proof.
  destruct (interact_ignores_end_of_input 5 0
              (connected [] [RData ping_nl],
               terminal [SReady [TheInput]; SReady [TheInput]] []))
    as (Hf & _ & _ & Hsl).
  - repeat constructor.
  - reflexivity.
  - split; [exact Hf | exact Hsl].
Defined.





